(** * Kernel pipes of axle: [src/kernel/util/multitasking/pipe.c]

    A shallow embedding of the pipe subsystem (creation of a READ/WRITE
    endpoint pair over one shared ring buffer, [pipe_read], [pipe_write],
    [pipe_close]) as state-passing functions over an explicit kernel
    state: a heap of [pipe_t] objects, a heap of [circular_buffer]
    objects, and one [task_t] per process id.  Pointers are heap
    addresses, so the sharing of one buffer by two endpoints and the
    sharing of one endpoint by several tasks is modelled as aliasing. *)

From stdpp Require Import base numbers option list gmap.

Local Open Scope Z_scope.

(** ** C scalars *)

(** [int] values are kept in [Z]; the only arithmetic of pipe.c that can
    leave the 32-bit range is [fd_max++], which is reduced by [int_wrap]. *)
Definition int_wrap (z : Z) : Z := (z + 2 ^ 31) mod 2 ^ 32 - 2 ^ 31.

(** A [char] is kept as its integer value. *)
Abbreviation char := Z (only parsing).
(** Heap addresses returned by [kmalloc]; the null pointer is [None]. *)
Abbreviation loc := positive (only parsing).
Abbreviation pid_t := Z (only parsing).

Inductive direction : Set := READ | WRITE.

Global Instance direction_eq_dec : EqDecision direction.
Proof. solve_decision. Defined.

(** ** The bounded array [array_m] *)

(** Modelled from the spec: the generic array container [array_m]
    (array_m_create, array_m_insert, array_m_index, array_m_remove,
    array_m_lookup are not part of the sources at hand).  It is an
    ordered collection with a fixed bound [max_size]; [size] is the number
    of stored items. *)
Record array_m (A : Type) : Type := mk_array_m {
  max_size : Z;
  items : list A
}.
Arguments mk_array_m {A} _ _.
Arguments max_size {A} _.
Arguments items {A} _.

Definition size {A} (a : array_m A) : Z := Z.of_nat (length (items a)).

Definition array_m_create {A} (max : Z) : array_m A := mk_array_m max [].

(** Appending needs a free slot; otherwise the container refuses. *)
Definition array_m_insert {A} (a : array_m A) (x : A) : option (array_m A) :=
  if size a <? max_size a then Some (mk_array_m (max_size a) (items a ++ [x]))
  else None.

Definition array_m_lookup {A} (a : array_m A) (i : Z) : option A :=
  if 0 <=? i then items a !! Z.to_nat i else None.

(** First index holding [x]; [None] stands for ARR_NOT_FOUND. *)
Fixpoint index_from {A} `{EqDecision A} (x : A) (l : list A) (i : Z) : option Z :=
  match l with
  | [] => None
  | y :: l' => if decide (y = x) then Some i else index_from x l' (i + 1)
  end.

Definition array_m_index {A} `{EqDecision A} (a : array_m A) (x : A) : option Z :=
  index_from x (items a) 0.

(** Removal closes the gap: later items move down by one. *)
Definition array_m_remove {A} (a : array_m A) (i : Z) : array_m A :=
  mk_array_m (max_size a) (delete (Z.to_nat i) (items a)).

(** ** The ring buffer [circular_buffer] *)

(** Modelled from the spec: the ring buffer (cb_init, cb_push_back,
    cb_pop_front, cb_free are not part of the sources at hand).  A
    storage block of [capacity] one-byte cells, the number [count] of
    stored bytes, a write cursor [head] and a read cursor [tail]; both
    cursors wrap around at the end of the block. *)
Record circular_buffer : Type := mk_cb {
  buffer : list char;
  capacity : Z;
  count : Z;
  head : Z;
  tail : Z
}.

Definition cb_init (cap : Z) : circular_buffer :=
  mk_cb (replicate (Z.to_nat cap) 0) cap 0 0 0.

Definition cb_advance (c : circular_buffer) (cursor : Z) : Z :=
  if cursor + 1 =? capacity c then 0 else cursor + 1.

(** push_back: [None] is Err(Full). *)
Definition cb_push_back (c : circular_buffer) (b : char) : option circular_buffer :=
  if count c =? capacity c then None
  else Some (mk_cb (<[Z.to_nat (head c) := b]> (buffer c)) (capacity c)
                   (count c + 1) (cb_advance c (head c)) (tail c)).

(** pop_front: [None] is Err(Empty). *)
Definition cb_pop_front (c : circular_buffer) : option (char * circular_buffer) :=
  if count c =? 0 then None
  else match buffer c !! Z.to_nat (tail c) with
       | Some b => Some (b, mk_cb (buffer c) (capacity c) (count c - 1)
                                  (head c) (cb_advance c (tail c)))
       | None => None
       end.

(** The bytes held by a buffer, oldest first: [count] cells starting at
    the read cursor, wrapping around. *)
Definition cb_cell (c : circular_buffer) (j : Z) : char :=
  default 0 (buffer c !! Z.to_nat ((tail c + j) mod capacity c)).

Definition cb_contents (c : circular_buffer) : list char :=
  cb_cell c <$> seqZ 0 (count c).

(** Representation invariant of a ring buffer. *)
Definition cb_wf (c : circular_buffer) : Prop :=
  0 < capacity c ∧ Z.of_nat (length (buffer c)) = capacity c ∧
  0 ≤ count c ≤ capacity c ∧ 0 ≤ tail c < capacity c ∧
  head c = (tail c + count c) mod capacity c.

(** ** Kernel objects *)

(** [pipe_t]: one endpoint.  [cb] is a pointer into the buffer heap (null
    right after the [memset]); [pids] lists the tasks referencing this
    endpoint.  The list is kept inside the endpoint: in pipe.c it is an
    [array_m] of its own, allocated by [array_m_create] (lines 14 and
    21) and freed nowhere in pipe.c, and the lifetime of that allocation
    is not part of this model. *)
Record pipe_t : Type := mk_pipe {
  dir : direction;
  fd : Z;
  pids : array_m pid_t;
  cb : option loc
}.

(** The part of [task_t] the pipe code uses: the descriptor counter and
    the task's list of pipe endpoints (pointers into the pipe heap). *)
Record task_t : Type := mk_task {
  fd_max : Z;
  pipes : array_m loc
}.

Record kernel : Type := mk_kernel {
  current_pid : pid_t;
  tasks : gmap Z task_t;
  pipe_heap : gmap positive pipe_t;
  cb_heap : gmap positive circular_buffer
}.

(** The conditions pipe.c reports.  Each of the first four is one
    [printf_err] site followed by a return ([-1] in pipe_read, pipe_write
    and at the first site of pipe_close); [OutOfDescriptors] is the
    [ASSERT(0, "... ran out of pipes!")] of [pipe]. *)
Inductive error : Set :=
  | InvalidDescriptor
  | WrongDirection
  | NotOwned
  | NotRegistered
  | OutOfDescriptors.

(** What a call can do: return to its caller, stop the kernel in a failed
    assertion, or leave defined behaviour (access through a null or
    released pointer, an index outside its array). *)
Inductive outcome (A : Type) : Type :=
  | Ret (a : A) (k : kernel)
  | Panic (e : error) (k : kernel)
  | Fault.
Arguments Ret {A} _ _.
Arguments Panic {A} _ _.
Arguments Fault {A}.

Definition M (A : Type) : Type := kernel → outcome A.

Global Instance M_ret : MRet M := λ A a k, Ret a k.
Global Instance M_bind : MBind M := λ A B f m k,
  match m k with
  | Ret a k' => f a k'
  | Panic e k' => Panic e k'
  | Fault => Fault
  end.

Definition fault {A} : M A := λ _, Fault.
Definition panic {A} (e : error) : M A := λ k, Panic e k.
Definition get : M kernel := λ k, Ret k k.
Definition put (k : kernel) : M unit := λ _, Ret tt k.

(** A value that must be present, else the access is undefined. *)
Definition must {A} (o : option A) : M A :=
  match o with Some a => mret a | None => fault end.

(** Modelled from the spec: the ASSERT macro (not part of the sources at
    hand) aborts when its condition is 0; [e] names the message. *)
Definition ASSERT (cond : bool) (e : error) : M unit :=
  if cond then mret tt else panic e.

(** *** Memory and tasks *)

(** Modelled from the spec: the kernel allocator ([kmalloc], [kfree]) and
    the task table ([getpid], [task_with_pid]) are outside collaborators,
    not part of the sources at hand.  [kmalloc] yields an address that is
    not in use; access through an address that is not allocated, and
    releasing one twice, leave defined behaviour. *)

Definition set_tasks (f : gmap Z task_t → gmap Z task_t) (k : kernel) : kernel :=
  mk_kernel (current_pid k) (f (tasks k)) (pipe_heap k) (cb_heap k).
Definition set_pipe_heap (f : gmap positive pipe_t → gmap positive pipe_t) (k : kernel) : kernel :=
  mk_kernel (current_pid k) (tasks k) (f (pipe_heap k)) (cb_heap k).
Definition set_cb_heap (f : gmap positive circular_buffer → gmap positive circular_buffer)
    (k : kernel) : kernel :=
  mk_kernel (current_pid k) (tasks k) (pipe_heap k) (f (cb_heap k)).

Definition getpid : M pid_t := k ← get; mret (current_pid k).

(** [task_with_pid(getpid())] yields a pointer to the task; the pid stands
    for that pointer and [load_task] dereferences it. *)
Definition load_task (pid : pid_t) : M task_t := k ← get; must (tasks k !! pid).
Definition store_task (pid : pid_t) (t : task_t) : M unit :=
  k ← get; _ ← must (tasks k !! pid); put (set_tasks <[pid := t]> k).

Definition load_pipe (p : loc) : M pipe_t := k ← get; must (pipe_heap k !! p).
Definition store_pipe (p : loc) (v : pipe_t) : M unit :=
  k ← get; _ ← must (pipe_heap k !! p); put (set_pipe_heap <[p := v]> k).
Definition kmalloc_pipe (v : pipe_t) : M loc :=
  k ← get; let p := fresh (dom (pipe_heap k)) in
  _ ← put (set_pipe_heap <[p := v]> k); mret p.
Definition kfree_pipe (p : loc) : M unit :=
  k ← get; _ ← must (pipe_heap k !! p); put (set_pipe_heap (delete p) k).

Definition load_cb (c : option loc) : M circular_buffer :=
  k ← get; a ← must c; must (cb_heap k !! a).
Definition store_cb (c : option loc) (v : circular_buffer) : M unit :=
  k ← get; a ← must c; _ ← must (cb_heap k !! a); put (set_cb_heap <[a := v]> k).
Definition kmalloc_cb (v : circular_buffer) : M loc :=
  k ← get; let a := fresh (dom (cb_heap k)) in
  _ ← put (set_cb_heap <[a := v]> k); mret a.
(** [cb_free(c); kfree(c)]: the storage block and the header go together. *)
Definition kfree_cb (c : option loc) : M unit :=
  k ← get; a ← must c; _ ← must (cb_heap k !! a); put (set_cb_heap (delete a) k).

(** ** Caller buffers *)

(** [char* buf] of the caller: a block of cells; an index outside the
    block is an undefined access. *)
Definition buf_get (buf : list char) (i : Z) : option char :=
  if 0 <=? i then buf !! Z.to_nat i else None.

Definition buf_set (buf : list char) (i : Z) (b : char) : option (list char) :=
  if (0 <=? i) && (i <? Z.of_nat (length buf)) then Some (<[Z.to_nat i := b]> buf)
  else None.

(** What [pipe_read] and [pipe_write] hand back: the count, or the
    condition reported before returning -1. *)
Inductive status : Set :=
  | OK (n : Z)
  | Error (e : error).

Definition retval (s : status) : Z :=
  match s with OK n => n | Error _ => -1 end.

(** [pipe_close] has no meaningful return value on most paths; the model
    records which path was taken. *)
Inductive close_status : Set :=
  | Closed
  | CloseError (e : error).

(** ** pipe.c *)

Section pipe_c.

(** The end-of-stream marker [EOF] of the standard headers, as a [char]. *)
Variable EOF : char.

(** [current->fd_max++] *)
Definition next_fd (pid : pid_t) : M Z :=
  current ← load_task pid;
  _ ← store_task pid (mk_task (int_wrap (fd_max current + 1)) (pipes current));
  mret (fd_max current).

(** Inserting into a full [array_m] is outside the container's contract. *)
Definition pids_insert (pipe : loc) (pid : pid_t) : M unit :=
  p ← load_pipe pipe;
  a ← must (array_m_insert (pids p) pid);
  store_pipe pipe (mk_pipe (dir p) (fd p) a (cb p)).

Definition new_endpoint (d : direction) : M loc :=
  pid ← getpid;
  n ← next_fd pid;
  pipe ← kmalloc_pipe (mk_pipe d n (array_m_create 32) None);
  _ ← pids_insert pipe pid;
  mret pipe.

Definition set_cb (pipe : loc) (c : option loc) : M unit :=
  p ← load_pipe pipe;
  store_pipe pipe (mk_pipe (dir p) (fd p) (pids p) c).

Definition pipe_create : M (loc * loc) :=
  r ← new_endpoint READ;
  w ← new_endpoint WRITE;
  (* read and write pipe share the same buffer *)
  c ← kmalloc_cb (cb_init 64);
  _ ← set_cb w (Some c);
  pw ← load_pipe w;
  _ ← set_cb r (cb pw);
  mret (r, w).

Definition pipe_destroy (pipe : loc) : M unit := kfree_pipe pipe.

Definition registry_insert (pid : pid_t) (pipe : loc) : M unit :=
  current ← load_task pid;
  a ← must (array_m_insert (pipes current) pipe);
  store_task pid (mk_task (fd_max current) a).

(** [pipe(pipefd)]: the result is the pair [(pipefd[0], pipefd[1])]. *)
Definition pipe : M (Z * Z) :=
  pid ← getpid;
  ends ← pipe_create;
  pr ← load_pipe ends.1;
  pw ← load_pipe ends.2;
  let pipefd := (fd pr, fd pw) in
  current ← load_task pid;
  _ ← (if size (pipes current) + 1 >=? max_size (pipes current)
       then ASSERT false OutOfDescriptors   (* ran out of pipes! *)
       else mret tt);
  _ ← registry_insert pid ends.1;
  _ ← registry_insert pid ends.2;
  mret pipefd.

(** The loop of [find_pipe]: [rounds] iterations remain and [i] is the loop
    index; the first endpoint whose descriptor matches wins.  The outer
    [None] is an undefined access (an entry that is not allocated). *)
Fixpoint find_pipe_loop (h : gmap positive pipe_t) (n : Z) (a : array_m loc)
    (rounds : nat) (i : Z) : option (option loc) :=
  match rounds with
  | O => Some None
  | S rounds' =>
      match array_m_lookup a i with
      | None => None
      | Some tmp =>
          match h !! tmp with
          | None => None
          | Some t =>
              if fd t =? n then Some (Some tmp)  (* found the pipe we're looking for! *)
              else find_pipe_loop h n a rounds' (i + 1)
          end
      end
  end.

Definition find_pipe (n : Z) : M (option loc) :=
  pid ← getpid;
  current ← load_task pid;
  k ← get;
  must (find_pipe_loop (pipe_heap k) n (pipes current)
          (Z.to_nat (size (pipes current))) 0).

(** The loop of [pipe_read]; [n] bounds the iterations left ([count - i]). *)
Fixpoint read_loop (n : nat) (pipe : loc) (buf : list char) (i : Z)
    : M (Z * list char) :=
  match n with
  | O => mret (i, buf)
  | S n' =>
      p ← load_pipe pipe;
      c ← load_cb (cb p);
      (* check if we're out of items to read *)
      if count c =? 0 then mret (i, buf)
      else
        buf' ← match cb_pop_front c with
               | Some (b, c') =>
                   buf' ← must (buf_set buf i b);
                   _ ← store_cb (cb p) c';
                   mret buf'
               | None => mret buf
               end;
        b ← must (buf_get buf' i);
        (* check if we hit EOF *)
        if b =? EOF then mret (i - 1, buf')
        else read_loop n' pipe buf' (i + 1)
  end.

Definition pipe_read (n : Z) (buf : list char) (cnt : Z) : M (status * list char) :=
  pipe ← find_pipe n;
  match pipe with
  | None => mret (Error InvalidDescriptor, buf)
  | Some pipe =>
      p ← load_pipe pipe;
      if decide (dir p ≠ READ) then mret (Error WrongDirection, buf)
      else
        r ← read_loop (Z.to_nat cnt) pipe buf 0;
        buf' ← must (buf_set r.2 r.1 0);
        mret (OK r.1, buf')
  end.

(** The loop of [pipe_write]. *)
Fixpoint write_loop (n : nat) (pipe : loc) (buf : list char) (i : Z) : M Z :=
  match n with
  | O => mret i
  | S n' =>
      p ← load_pipe pipe;
      c ← load_cb (cb p);
      if count c =? capacity c then mret i
      else
        b ← must (buf_get buf i);
        _ ← match cb_push_back c b with
            | Some c' => store_cb (cb p) c'
            | None => mret tt
            end;
        write_loop n' pipe buf (i + 1)
  end.

Definition pipe_write (n : Z) (buf : list char) (cnt : Z) : M status :=
  pipe ← find_pipe n;
  match pipe with
  | None => mret (Error InvalidDescriptor)
  | Some pipe =>
      p ← load_pipe pipe;
      (* correct direction? *)
      if decide (dir p ≠ WRITE) then mret (Error WrongDirection)
      else
        i ← write_loop (Z.to_nat cnt) pipe buf 0;
        mret (OK i)
  end.

(** Lines 151-157 of [pipe_close]: a WRITE endpoint of a task whose list
    of pipes has exactly one entry gets EOF written through [pipe_write];
    the count that [pipe_write] returns is dropped. *)
Definition pipe_close_eof (n : Z) (pipe : loc) : M unit :=
  pid ← getpid;
  p ← load_pipe pipe;
  (* pipe->dir == WRITE && current->pipes->size == 1 *)
  last ← (if bool_decide (dir p = WRITE)
          then current ← load_task pid; mret (size (pipes current) =? 1)
          else mret false);
  if last : bool then
    (* when closing write end, write EOF to buffer *)
    _ ← pipe_write n [EOF] 1; mret tt
  else mret tt.

(** Lines 159-190 of [pipe_close]: the task leaves the endpoint's [pids],
    the endpoint leaves the task's list, and an endpoint nobody references
    any more is torn down. *)
Definition pipe_close_release (pipe : loc) : M close_status :=
  pid ← getpid;
  p ← load_pipe pipe;
  (* remove current PID from list of PIDs referencing this pipe end *)
  match array_m_index (pids p) pid with
  | None => mret (CloseError NotOwned)
  | Some idx =>
      _ ← store_pipe pipe (mk_pipe (dir p) (fd p) (array_m_remove (pids p) idx) (cb p));
      (* remove this pipe from process's list of pipes *)
      current ← load_task pid;
      match array_m_index (pipes current) pipe with
      | None => mret (CloseError NotRegistered)
      | Some idx =>
          _ ← store_task pid (mk_task (fd_max current)
                                      (array_m_remove (pipes current) idx));
          p ← load_pipe pipe;
          (* if there are more processes referencing this pipe, quit early *)
          if negb (size (pids p) =? 0) then mret Closed
          else
            _ ← (if decide (dir p = READ) then kfree_cb (cb p) else mret tt);
            _ ← pipe_destroy pipe;
            mret Closed
      end
  end.

Definition pipe_close (n : Z) : M close_status :=
  pipe ← find_pipe n;
  match pipe with
  | None => mret (CloseError InvalidDescriptor)
  | Some pipe =>
      _ ← pipe_close_eof n pipe;
      pipe_close_release pipe
  end.

End pipe_c.

(** ** Vocabulary of the statements *)

(** The scan of [find_pipe] told over the list of entries, front to back. *)
Fixpoint find_pipe_in (h : gmap positive pipe_t) (n : Z) (l : list loc)
    : option (option loc) :=
  match l with
  | [] => Some None
  | tmp :: l' =>
      match h !! tmp with
      | None => None
      | Some t => if fd t =? n then Some (Some tmp) else find_pipe_in h n l'
      end
  end.

(** Descriptor [n] of the current task resolves to the live endpoint
    [pipe], whose fields are [p]. *)
Definition resolves (k : kernel) (n : Z) (pipe : loc) (p : pipe_t) : Prop :=
  find_pipe n k = Ret (Some pipe) k ∧ pipe_heap k !! pipe = Some p.

(** Endpoint [p] points to the live ring buffer [c] at address [a]. *)
Definition backed (k : kernel) (p : pipe_t) (a : loc) (c : circular_buffer) : Prop :=
  cb p = Some a ∧ cb_heap k !! a = Some c.

(** The kernel state with ring buffer [a] replaced by [c]. *)
Definition with_cb (a : loc) (c : circular_buffer) (k : kernel) : kernel :=
  set_cb_heap <[a := c]> k.

(** The caller's block [buf] after [data] was stored from cell [i] on. *)
Definition blit (buf : list char) (i : Z) (data : list char) : list char :=
  take (Z.to_nat i) buf ++ data ++ drop (Z.to_nat i + length data) buf.

(** The addresses [kmalloc] hands out during [pipe]: the READ endpoint
    first, then the WRITE endpoint, then the shared buffer. *)
Definition new_read_end (k : kernel) : loc := fresh (dom (pipe_heap k)).
Definition new_write_end (k : kernel) : loc :=
  fresh ({[new_read_end k]} ∪ dom (pipe_heap k)).
Definition new_buffer (k : kernel) : loc := fresh (dom (cb_heap k)).

(** The kernel state [pipe_create] leaves behind when run by a task whose
    fields are [t]: two endpoints owned by the task, one empty buffer of
    64 cells, two descriptors used up. *)
Definition after_pipe_create (k : kernel) (t : task_t) : kernel :=
  let owner := mk_array_m 32 [current_pid k] in
  mk_kernel (current_pid k)
    (<[current_pid k := mk_task (int_wrap (int_wrap (fd_max t + 1) + 1)) (pipes t)]>
       (tasks k))
    (<[new_write_end k :=
         mk_pipe WRITE (int_wrap (fd_max t + 1)) owner (Some (new_buffer k))]>
       (<[new_read_end k := mk_pipe READ (fd_max t) owner (Some (new_buffer k))]>
          (pipe_heap k)))
    (<[new_buffer k := cb_init 64]> (cb_heap k)).

(** The state after a successful [pipe]: both endpoints are appended to
    the task's list. *)
Definition after_pipe (k : kernel) (t : task_t) : kernel :=
  set_tasks
    <[current_pid k :=
        mk_task (int_wrap (int_wrap (fd_max t + 1) + 1))
                (mk_array_m (max_size (pipes t))
                            (items (pipes t) ++ [new_read_end k; new_write_end k]))]>
    (after_pipe_create k t).

(** The task's list holds live endpoints only, none of which already
    carries one of the two descriptors [pipe] is about to hand out. *)
Definition registry_fresh (k : kernel) (t : task_t) : Prop :=
  Forall (λ q, ∃ v, pipe_heap k !! q = Some v ∧
                    fd v ≠ fd_max t ∧ fd v ≠ int_wrap (fd_max t + 1))
         (items (pipes t)).

(** Endpoint [p] once the owner stored at index [i] of [pids] has left. *)
Definition without_owner (p : pipe_t) (i : Z) : pipe_t :=
  mk_pipe (dir p) (fd p) (array_m_remove (pids p) i) (cb p).

(** Task [t] once the endpoint stored at index [j] of its list is removed. *)
Definition without_entry (t : task_t) (j : Z) : task_t :=
  mk_task (fd_max t) (array_m_remove (pipes t) j).

(** ** Further vocabulary *)

(** Entry [q] of a task's list is a live endpoint that carries a
    descriptor other than [n]. *)
Definition other_entry (k : kernel) (n : Z) (q : loc) : Prop :=
  ∃ v, pipe_heap k !! q = Some v ∧ fd v ≠ n.

(** Every allocated ring buffer satisfies the representation invariant. *)
Definition buffers_wf (k : kernel) : Prop :=
  ∀ a c, cb_heap k !! a = Some c → cb_wf c.

(** The entries of a task's list are live and carry pairwise different
    descriptors. *)
Definition registry_unique (k : kernel) (t : task_t) : Prop :=
  ∃ ps, Forall2 (λ q v, pipe_heap k !! q = Some v) (items (pipes t)) ps ∧
        NoDup (fd <$> ps).

(** [k'] has the same current task, task table and endpoints as [k], and
    the same ring buffers are allocated. *)
Definition same_objects (k k' : kernel) : Prop :=
  current_pid k' = current_pid k ∧ tasks k' = tasks k ∧
  pipe_heap k' = pipe_heap k ∧ dom (cb_heap k') = dom (cb_heap k).

(** Every ring buffer other than the one [o] points to is the same in
    [k'] as in [k]. *)
Definition other_buffers_kept (o : option loc) (k k' : kernel) : Prop :=
  ∀ a, o ≠ Some a → cb_heap k' !! a = cb_heap k !! a.

(** What a transfer loop on the buffer of endpoint [pipe] keeps: the set
    of objects, the invariant of the buffers, and every other buffer. *)
Definition loop_keeps (pipe : loc) (k k' : kernel) : Prop :=
  same_objects k k' ∧ (buffers_wf k → buffers_wf k') ∧
  ∀ p, pipe_heap k !! pipe = Some p → other_buffers_kept (cb p) k k'.

(** Descriptors are handed out in increasing order and never reused:
    every task's [fd_max] is an [int]; its list has no entry twice; and
    each entry is a live endpoint that has the task among its owners and
    carries a descriptor below the task's [fd_max]. *)
Definition descriptors_in_order (k : kernel) : Prop :=
  ∀ pid t, tasks k !! pid = Some t →
    - 2 ^ 31 ≤ fd_max t < 2 ^ 31 ∧
    NoDup (items (pipes t)) ∧
    Forall (λ q, ∃ v, pipe_heap k !! q = Some v ∧ pid ∈ items (pids v) ∧
                      fd v < fd_max t)
           (items (pipes t)).

(** ** Concrete scenarios *)

(** The usual value of the EOF marker. *)
Definition EOF_byte : char := -1.

(** A task (pid 1) that holds no pipes yet; its list has three slots. *)
Definition t_boot : task_t := mk_task 0 (mk_array_m 3 []).
Definition k_boot : kernel := mk_kernel 1 {[ 1 := t_boot ]} ∅ ∅.

(** After one [pipe()]: descriptor 0 reads, descriptor 1 writes. *)
Definition k_piped : kernel := after_pipe k_boot t_boot.
Definition r_piped : pipe_t := mk_pipe READ 0 (mk_array_m 32 [1]) (Some 1%positive).
Definition w_piped : pipe_t := mk_pipe WRITE 1 (mk_array_m 32 [1]) (Some 1%positive).

(** A pipe made by task 1 and inherited by task 2, which has already
    closed its copy of the READ endpoint: task 2 holds the WRITE endpoint
    only, and both tasks reference that endpoint.  [held] is the buffer. *)
Definition k_shared (held : circular_buffer) : kernel :=
  mk_kernel 2
    {[ 1 := mk_task 2 (mk_array_m 3 [1%positive; 2%positive]);
       2 := mk_task 2 (mk_array_m 3 [2%positive]) ]}
    {[ 1%positive := mk_pipe READ 0 (mk_array_m 32 [1]) (Some 1%positive);
       2%positive := mk_pipe WRITE 1 (mk_array_m 32 [1; 2]) (Some 1%positive) ]}
    {[ 1%positive := held ]}.
Definition w_shared : pipe_t := mk_pipe WRITE 1 (mk_array_m 32 [1; 2]) (Some 1%positive).

(** Two bytes written, none read. *)
Definition cb_hi : circular_buffer :=
  mk_cb ([104; 105] ++ replicate 62 0) 64 2 2 0.
(** All 64 cells in use. *)
Definition cb_full : circular_buffer := mk_cb (replicate 64 120) 64 64 0 0.

(** An endpoint that lists task 2 as an owner although task 2 does not
    have it in its list of pipes. *)
Definition k_unlisted : kernel :=
  mk_kernel 2
    {[ 2 := mk_task 2 (mk_array_m 3 []) ]}
    {[ 2%positive := w_shared ]}
    {[ 1%positive := cb_hi ]}.

(** "hi" followed by the EOF byte, none read. *)
Definition cb_hi_eof : circular_buffer :=
  mk_cb ([104; 105; EOF_byte] ++ replicate 61 0) 64 3 3 0.

(** The task of [k_piped] after its [pipe()]. *)
Definition t_piped : task_t := mk_task 2 (mk_array_m 3 [1%positive; 2%positive]).

(** A task (pid 1) without pipes whose list has eight slots. *)
Definition t_roomy : task_t := mk_task 0 (mk_array_m 8 []).
Definition k_roomy : kernel := mk_kernel 1 {[ 1 := t_roomy ]} ∅ ∅.

(** The kernel state [k] when task [pid] is the one running. *)
Definition as_task (pid : pid_t) (k : kernel) : kernel :=
  mk_kernel pid (tasks k) (pipe_heap k) (cb_heap k).

(** A task (pid 3) that lists the endpoints of [k_piped] without being
    among their owners. *)
Definition k_stranger : kernel := as_task 3 (set_tasks <[3 := t_piped]> k_piped).

(** A task (pid 1) whose list already holds a live WRITE endpoint that
    carries descriptor 0, the descriptor its next [pipe()] hands out. *)
Definition k_clash : kernel :=
  mk_kernel 1
    {[ 1 := mk_task 0 (mk_array_m 8 [5%positive]) ]}
    {[ 5%positive := mk_pipe WRITE 0 (mk_array_m 32 [1]) (Some 9%positive) ]}
    {[ 9%positive := cb_init 64 ]}.

(** A task (pid 1) whose list holds an entry that has been released. *)
Definition k_dangling : kernel :=
  mk_kernel 1 {[ 1 := mk_task 0 (mk_array_m 8 [5%positive]) ]} ∅ ∅.


(** * Properties *)

(** ** The ring buffer holds a FIFO queue *)

Section ring_buffer.

Implicit Types (c : circular_buffer) (b : char).

Lemma cb_contents_length c : 0 ≤ count c → Z.of_nat (length (cb_contents c)) = count c.
Proof.
  intros H. unfold cb_contents. rewrite length_fmap, length_seqZ. lia.
Qed.

Lemma cb_init_wf cap : 0 < cap → cb_wf (cb_init cap).
Proof.
  intros H. unfold cb_wf, cb_init; simpl.
  rewrite length_replicate, Z.add_0_l, Z.mod_0_l by lia. lia.
Qed.

Lemma cb_init_contents cap : cb_contents (cb_init cap) = [].
Proof. reflexivity. Qed.

Lemma cb_advance_mod c x :
  0 < capacity c → 0 ≤ x < capacity c → cb_advance c x = (x + 1) mod capacity c.
Proof.
  intros Hc Hx. unfold cb_advance.
  destruct (Z.eqb_spec (x + 1) (capacity c)) as [->|Hne].
  - by rewrite Z.mod_same by lia.
  - rewrite Z.mod_small; lia.
Qed.

(** Two offsets below the capacity address the same cell only if equal. *)
Lemma cb_cell_index_inj c i j :
  0 < capacity c → 0 ≤ i < capacity c → 0 ≤ j < capacity c →
  (tail c + i) mod capacity c = (tail c + j) mod capacity c → i = j.
Proof.
  intros Hc Hi Hj Heq.
  assert ((i - j) mod capacity c = 0) as Hd.
  { replace (i - j) with ((tail c + i) - (tail c + j)) by lia.
    rewrite Zminus_mod, Heq, Z.sub_diag. by apply Z.mod_0_l; lia. }
  apply Z.mod_divide in Hd; [|lia]. destruct Hd as [q Hq].
  assert (q = 0) by nia. lia.
Qed.

Lemma cb_push_back_spec c b :
  cb_wf c → count c ≠ capacity c →
  ∃ c', cb_push_back c b = Some c' ∧ cb_wf c' ∧
        capacity c' = capacity c ∧ count c' = count c + 1 ∧
        cb_contents c' = cb_contents c ++ [b].
Proof.
  intros (Hcap & Hlen & Hcnt & Htl & Hhd) Hfull.
  unfold cb_push_back. rewrite (proj2 (Z.eqb_neq _ _) Hfull).
  eexists; split; [reflexivity|].
  assert (0 ≤ head c < capacity c) as Hh.
  { rewrite Hhd. apply Z.mod_pos_bound; lia. }
  split; [|split; [done|split; [done|]]].
  - unfold cb_wf; simpl. rewrite length_insert.
    repeat split; try lia.
    rewrite cb_advance_mod by lia. rewrite Hhd.
    rewrite Zplus_mod_idemp_l. f_equal; lia.
  - unfold cb_contents; simpl.
    rewrite seqZ_app by lia. rewrite fmap_app. simpl. f_equal.
    + apply list_fmap_ext. intros i j Hj.
      apply lookup_seqZ in Hj as [-> Hi].
      unfold cb_cell; simpl.
      rewrite list_lookup_insert_ne; [done|].
      intros Heq. apply Z2Nat.inj in Heq; try lia.
      * rewrite Hhd in Heq. apply cb_cell_index_inj in Heq; lia.
      * apply Z.mod_pos_bound; lia.
    + rewrite Z.add_0_l. change (seqZ (count c) 1) with [count c]. simpl.
      unfold cb_cell; simpl. rewrite ?Z.add_0_l, <- Hhd.
      rewrite list_lookup_insert_eq; [done|lia].
Qed.

Lemma cb_pop_front_spec c :
  cb_wf c → count c ≠ 0 →
  ∃ b c', cb_pop_front c = Some (b, c') ∧ cb_wf c' ∧
          capacity c' = capacity c ∧ count c' = count c - 1 ∧
          cb_contents c = b :: cb_contents c'.
Proof.
  intros (Hcap & Hlen & Hcnt & Htl & Hhd) Hempty.
  unfold cb_pop_front. rewrite (proj2 (Z.eqb_neq _ _) Hempty).
  destruct (lookup_lt_is_Some_2 (buffer c) (Z.to_nat (tail c))) as [b Hb]; [lia|].
  rewrite Hb. eexists _, _; split; [reflexivity|].
  split; [|split; [done|split; [done|]]].
  - unfold cb_wf; simpl. rewrite cb_advance_mod by lia.
    repeat split; try lia; try (apply Z.mod_pos_bound; lia).
    rewrite Hhd, Zplus_mod_idemp_l. f_equal; lia.
  - unfold cb_contents; simpl.
    replace (count c) with (1 + (count c - 1)) at 1 by lia.
    rewrite seqZ_app by lia. rewrite fmap_app. simpl. f_equal.
    + unfold cb_cell. rewrite Z.add_0_r, Z.mod_small by lia. by rewrite Hb.
    + rewrite Z.add_0_l. rewrite <- (fmap_add_seqZ 1 0), <- list_fmap_compose.
      apply list_fmap_ext. intros i j _. unfold cb_cell; simpl.
      rewrite cb_advance_mod by lia.
      rewrite Zplus_mod_idemp_l. by rewrite Z.add_assoc.
Qed.

End ring_buffer.

(** ** Running the state monad *)

Section monad.

Lemma bind_Ret {A B} (m : M A) (f : A → M B) (k k' : kernel) (a : A) :
  m k = Ret a k' → (m ≫= f) k = f a k'.
Proof. intros H. unfold mbind, M_bind. by rewrite H. Qed.

Lemma bind_Fault {A B} (m : M A) (f : A → M B) (k : kernel) :
  m k = Fault → (m ≫= f) k = Fault.
Proof. intros H. unfold mbind, M_bind. by rewrite H. Qed.

Lemma bind_inv_Ret {A B} (m : M A) (f : A → M B) (k k' : kernel) (b : B) :
  (m ≫= f) k = Ret b k' → ∃ a k1, m k = Ret a k1 ∧ f a k1 = Ret b k'.
Proof.
  unfold mbind, M_bind. destruct (m k) as [a k1| |]; [eauto|done|done].
Qed.

Lemma bind_assoc {A B C} (m : M A) (f : A → M B) (g : B → M C) (k : kernel) :
  ((m ≫= f) ≫= g) k = (m ≫= λ a, f a ≫= g) k.
Proof. unfold mbind, M_bind. by destruct (m k). Qed.

Lemma kernel_eta (k : kernel) :
  mk_kernel (current_pid k) (tasks k) (pipe_heap k) (cb_heap k) = k.
Proof. by destruct k. Qed.

Lemma with_cb_id a c k : cb_heap k !! a = Some c → with_cb a c k = k.
Proof.
  intros H. unfold with_cb, set_cb_heap. rewrite insert_id by done. apply kernel_eta.
Qed.

Lemma with_cb_twice a c c' k : with_cb a c' (with_cb a c k) = with_cb a c' k.
Proof. unfold with_cb, set_cb_heap; simpl. by rewrite insert_insert_eq. Qed.

Lemma with_cb_lookup a c k : cb_heap (with_cb a c k) !! a = Some c.
Proof. unfold with_cb; simpl. apply lookup_insert_eq. Qed.

End monad.

(** Unfolds the monad plumbing so that a computation becomes nested
    matches on the lookups it performs. *)
Ltac munfold :=
  cbv [mbind M_bind mret M_ret get put must fault panic ASSERT
       getpid load_task store_task load_pipe store_pipe load_cb store_cb] in *.

(** ** Descriptor resolution *)

(** The indexed loop of [find_pipe] is a front-to-back scan of the list. *)
Lemma find_pipe_loop_in h n a l : ∀ i,
  0 ≤ i → drop (Z.to_nat i) (items a) = l →
  find_pipe_loop h n a (length l) i = find_pipe_in h n l.
Proof.
  induction l as [|q l IH]; intros i Hi Hdrop; simpl; [done|].
  assert (array_m_lookup a i = Some q) as ->.
  { unfold array_m_lookup. rewrite (proj2 (Z.leb_le _ _) Hi).
    rewrite <- (Nat.add_0_r (Z.to_nat i)), <- lookup_drop, Hdrop. done. }
  destruct (h !! q) as [t|]; [|done].
  destruct (fd t =? n); [done|].
  apply IH; [lia|].
  replace (Z.to_nat (i + 1)) with (Z.to_nat i + 1)%nat by lia.
  by rewrite <- drop_drop, Hdrop.
Qed.

Lemma find_pipe_loop_all h n a :
  find_pipe_loop h n a (Z.to_nat (size a)) 0 = find_pipe_in h n (items a).
Proof. unfold size. rewrite Nat2Z.id. by apply find_pipe_loop_in. Qed.

Lemma find_pipe_inv n k r k' :
  find_pipe n k = Ret r k' →
  k' = k ∧ ∃ t, tasks k !! current_pid k = Some t ∧
                find_pipe_in (pipe_heap k) n (items (pipes t)) = Some r.
Proof.
  unfold find_pipe. munfold. simpl.
  destruct (tasks k !! current_pid k) as [t|] eqn:Ht; [|done]. simpl.
  rewrite find_pipe_loop_all.
  destruct (find_pipe_in _ _ _) as [r'|] eqn:Hf; [|done]. simpl.
  intros [= <- <-]. eauto.
Qed.

Lemma find_pipe_intro n k t r :
  tasks k !! current_pid k = Some t →
  find_pipe_in (pipe_heap k) n (items (pipes t)) = Some r →
  find_pipe n k = Ret r k.
Proof.
  intros Ht Hf. unfold find_pipe. munfold. simpl. rewrite Ht. simpl.
  by rewrite find_pipe_loop_all, Hf.
Qed.

Lemma find_pipe_in_found h n l pipe :
  find_pipe_in h n l = Some (Some pipe) →
  pipe ∈ l ∧ ∃ p, h !! pipe = Some p ∧ fd p = n.
Proof.
  induction l as [|q l IH]; simpl; [done|].
  destruct (h !! q) as [t|] eqn:Hq; [|done].
  destruct (Z.eqb_spec (fd t) n) as [Heq|Hne].
  - intros [= <-]. split; [apply elem_of_cons; by left|eauto].
  - intros H. destruct (IH H) as [? ?]. split; [apply elem_of_cons; by right|done].
Qed.

Lemma resolves_task k n pipe p :
  resolves k n pipe p → ∃ t, tasks k !! current_pid k = Some t ∧ pipe ∈ items (pipes t).
Proof.
  intros [Hf _]. apply find_pipe_inv in Hf as (_ & t & Ht & Hin).
  apply find_pipe_in_found in Hin as [? _]. eauto.
Qed.

(** ** The transfer loops *)

Section loops.

Variable EOF : char.
Implicit Types (k : kernel) (c : circular_buffer) (buf : list char).

Lemma buf_get_Some buf i b :
  0 ≤ i → buf !! Z.to_nat i = Some b → buf_get buf i = Some b.
Proof. intros Hi Hb. unfold buf_get. by rewrite (proj2 (Z.leb_le _ _) Hi). Qed.

Lemma buf_set_Some buf i b :
  0 ≤ i < Z.of_nat (length buf) → buf_set buf i b = Some (<[Z.to_nat i := b]> buf).
Proof.
  intros [Hi Hl]. unfold buf_set.
  by rewrite (proj2 (Z.leb_le _ _) Hi), (proj2 (Z.ltb_lt _ _) Hl).
Qed.

(** A full buffer, or no iterations left: the write loop stops at once. *)
Lemma write_loop_full n k pipe p a c buf i :
  pipe_heap k !! pipe = Some p → backed k p a c →
  count c = capacity c →
  write_loop n pipe buf i k = Ret i k.
Proof.
  intros Hp [Ha Hc] Hfull. destruct n; [done|]. simpl. munfold.
  rewrite Hp, Ha, Hc, Hfull, Z.eqb_refl. done.
Qed.

(** One iteration of the write loop on a buffer with room. *)
Lemma write_loop_step n k pipe p a c buf i b :
  pipe_heap k !! pipe = Some p → backed k p a c →
  cb_wf c → count c ≠ capacity c →
  0 ≤ i → buf !! Z.to_nat i = Some b →
  ∃ c', write_loop (S n) pipe buf i k = write_loop n pipe buf (i + 1) (with_cb a c' k) ∧
        cb_wf c' ∧ capacity c' = capacity c ∧ count c' = count c + 1 ∧
        cb_contents c' = cb_contents c ++ [b].
Proof.
  intros Hp [Ha Hc] Hwf Hroom Hi Hb.
  destruct (cb_push_back_spec c b Hwf Hroom) as (c' & Hpush & Hrest).
  exists c'. split; [|done]. simpl. munfold.
  rewrite Hp, Ha, Hc, (proj2 (Z.eqb_neq _ _) Hroom).
  rewrite (buf_get_Some _ _ _ Hi Hb), Hpush, Hc. done.
Qed.

(** One iteration of the read loop on a non-empty buffer. *)
Lemma read_loop_step n k pipe p a c buf i :
  pipe_heap k !! pipe = Some p → backed k p a c →
  cb_wf c → count c ≠ 0 →
  0 ≤ i < Z.of_nat (length buf) →
  ∃ b c', cb_contents c = b :: cb_contents c' ∧ cb_wf c' ∧
          capacity c' = capacity c ∧ count c' = count c - 1 ∧
          read_loop EOF (S n) pipe buf i k =
            if b =? EOF then Ret (i - 1, <[Z.to_nat i := b]> buf) (with_cb a c' k)
            else read_loop EOF n pipe (<[Z.to_nat i := b]> buf) (i + 1) (with_cb a c' k).
Proof.
  intros Hp [Ha Hc] Hwf Hne Hi.
  destruct (cb_pop_front_spec c Hwf Hne) as (b & c' & Hpop & Hwf' & Hcap & Hcnt & Hcont).
  exists b, c'. repeat (split; [done|]). simpl. munfold.
  rewrite Hp, Ha, Hc, (proj2 (Z.eqb_neq _ _) Hne), Hpop.
  rewrite (buf_set_Some _ _ b Hi), Hc.
  rewrite (buf_get_Some _ _ b) by (lia || (apply list_lookup_insert_eq; lia)).
  by destruct (b =? EOF).
Qed.

Lemma read_loop_empty n k pipe p a c buf i :
  pipe_heap k !! pipe = Some p → backed k p a c →
  count c = 0 →
  read_loop EOF n pipe buf i k = Ret (i, buf) k.
Proof.
  intros Hp [Ha Hc] Hz. destruct n; [done|]. simpl. munfold.
  rewrite Hp, Ha, Hc, Hz. done.
Qed.

Lemma cb_contents_nonempty c b l :
  cb_wf c → cb_contents c = b :: l → count c ≠ 0.
Proof.
  intros (_ & _ & Hcnt & _) Hl Hz.
  pose proof (cb_contents_length c (proj1 Hcnt)) as Hlen.
  rewrite Hl, Hz in Hlen. simpl in Hlen. lia.
Qed.

Lemma blit_nil buf i : blit buf i [] = buf.
Proof. unfold blit; simpl. by rewrite Nat.add_0_r, take_drop. Qed.

Lemma blit_cons buf i b data :
  0 ≤ i < Z.of_nat (length buf) →
  blit (<[Z.to_nat i := b]> buf) (i + 1) data = blit buf i (b :: data).
Proof.
  intros Hi. unfold blit.
  replace (Z.to_nat (i + 1)) with (S (Z.to_nat i)) by lia.
  erewrite take_S_r by (apply list_lookup_insert_eq; lia).
  rewrite take_insert_ge by lia. rewrite drop_insert_lt by lia.
  rewrite <- app_assoc. simpl. by rewrite Nat.add_succ_r.
Qed.

Lemma blit_length buf i data :
  0 ≤ i → (Z.to_nat i + length data ≤ length buf)%nat →
  length (blit buf i data) = length buf.
Proof.
  intros Hi Hl. unfold blit. rewrite !length_app, length_take, length_drop. lia.
Qed.

Lemma blit_take buf i data :
  0 ≤ i → (Z.to_nat i ≤ length buf)%nat →
  take (length data) (drop (Z.to_nat i) (blit buf i data)) = data.
Proof.
  intros Hi Hl. unfold blit.
  rewrite drop_app_length'; [|rewrite length_take; lia].
  by rewrite take_app_length.
Qed.

(** The write loop stores a run [data] of the caller's block that is as
    long as the iteration bound or the free room allows. *)
Lemma write_loop_run data : ∀ n k pipe p a c buf i rest,
  pipe_heap k !! pipe = Some p → backed k p a c → cb_wf c →
  0 ≤ i → drop (Z.to_nat i) buf = data ++ rest →
  (length data = n ∨
   (length data ≤ n)%nat ∧ count c + Z.of_nat (length data) = capacity c) →
  count c + Z.of_nat (length data) ≤ capacity c →
  ∃ c', write_loop n pipe buf i k = Ret (i + Z.of_nat (length data)) (with_cb a c' k) ∧
        cb_wf c' ∧ capacity c' = capacity c ∧
        count c' = count c + Z.of_nat (length data) ∧
        cb_contents c' = cb_contents c ++ data.
Proof.
  induction data as [|b data IH]; intros n k pipe p a c buf i rest Hp Hb Hwf Hi Hbuf Hstop Hroom.
  - exists c. simpl. rewrite Z.add_0_r, app_nil_r, (with_cb_id a c k) by apply Hb.
    split; [|split; [done|split; [done|split; [lia|done]]]].
    destruct Hstop as [<-|[_ Hfull]]; [done|].
    eapply write_loop_full; eauto. simpl in Hfull. lia.
  - simpl in Hroom, Hstop.
    destruct n as [|n]; [lia|].
    assert (buf !! Z.to_nat i = Some b) as Hbi.
    { rewrite <- (Nat.add_0_r (Z.to_nat i)), <- lookup_drop, Hbuf. done. }
    destruct (write_loop_step n k pipe p a c buf i b Hp Hb Hwf ltac:(lia) Hi Hbi)
      as (c1 & -> & Hwf1 & Hcap1 & Hcnt1 & Hcont1).
    destruct (IH n (with_cb a c1 k) pipe p a c1 buf (i + 1) rest)
      as (c' & -> & Hwf' & Hcap' & Hcnt' & Hcont').
    + done.
    + split; [apply Hb|apply with_cb_lookup].
    + done.
    + lia.
    + replace (Z.to_nat (i + 1)) with (Z.to_nat i + 1)%nat by lia.
      rewrite <- drop_drop, Hbuf. done.
    + lia.
    + lia.
    + exists c'. rewrite with_cb_twice. simpl length.
      split; [f_equal; lia|].
      split; [done|]. split; [congruence|]. split; [lia|].
      rewrite Hcont', Hcont1, <- app_assoc. done.
Qed.

(** The read loop on a buffer whose oldest bytes [data] hold no EOF, when
    the loop ends with the iteration bound or with the buffer drained. *)
Lemma read_loop_run data : ∀ n k pipe p a c buf i rest,
  pipe_heap k !! pipe = Some p → backed k p a c → cb_wf c →
  cb_contents c = data ++ rest → EOF ∉ data →
  (length data = n ∨ (length data ≤ n)%nat ∧ rest = []) →
  0 ≤ i → i + Z.of_nat (length data) ≤ Z.of_nat (length buf) →
  ∃ c', read_loop EOF n pipe buf i k =
          Ret (i + Z.of_nat (length data), blit buf i data) (with_cb a c' k) ∧
        cb_wf c' ∧ capacity c' = capacity c ∧ cb_contents c' = rest.
Proof.
  induction data as [|b data IH]; intros n k pipe p a c buf i rest Hp Hb Hwf Hcont Heof Hstop Hi Hroom.
  - exists c. simpl. rewrite Z.add_0_r, blit_nil, (with_cb_id a c k) by apply Hb.
    split; [|done]. destruct Hstop as [<-|[_ ->]]; [done|].
    eapply read_loop_empty; eauto.
    destruct Hwf as (_ & _ & Hcnt & _).
    pose proof (cb_contents_length c (proj1 Hcnt)) as Hlen.
    rewrite Hcont in Hlen. simpl in Hlen. lia.
  - simpl in Hroom, Hstop, Hcont.
    destruct n as [|n]; [lia|].
    apply not_elem_of_cons in Heof as [Hne Heof].
    destruct (read_loop_step n k pipe p a c buf i Hp Hb Hwf
                (cb_contents_nonempty _ _ _ Hwf Hcont) ltac:(lia))
      as (b' & c1 & Hcont1 & Hwf1 & Hcap1 & Hcnt1 & ->).
    rewrite Hcont in Hcont1. injection Hcont1 as <- Hcont1.
    rewrite (proj2 (Z.eqb_neq _ _)) by congruence.
    destruct (IH n (with_cb a c1 k) pipe p a c1 (<[Z.to_nat i := b]> buf) (i + 1) rest)
      as (c' & -> & Hwf' & Hcap' & Hcont').
    + done.
    + split; [apply Hb|apply with_cb_lookup].
    + done.
    + done.
    + done.
    + destruct Hstop as [?|[? ?]]; [left; lia|right; split; [lia|done]].
    + lia.
    + rewrite length_insert. lia.
    + exists c'. rewrite with_cb_twice, blit_cons by lia. simpl length.
      split; [do 2 f_equal; lia|].
      split; [done|]. split; [congruence|done].
Qed.

(** The read loop on a buffer whose oldest bytes are [data], free of EOF,
    followed by an EOF byte the iteration bound lets it reach. *)
Lemma read_loop_eof data : ∀ n k pipe p a c buf i rest,
  pipe_heap k !! pipe = Some p → backed k p a c → cb_wf c →
  cb_contents c = data ++ EOF :: rest → EOF ∉ data →
  (length data < n)%nat →
  0 ≤ i → i + Z.of_nat (length data) < Z.of_nat (length buf) →
  ∃ c', read_loop EOF n pipe buf i k =
          Ret (i + Z.of_nat (length data) - 1, blit buf i (data ++ [EOF])) (with_cb a c' k) ∧
        cb_wf c' ∧ capacity c' = capacity c ∧ cb_contents c' = rest.
Proof.
  induction data as [|b data IH]; intros n k pipe p a c buf i rest Hp Hb Hwf Hcont Heof Hn Hi Hroom;
    simpl in Hroom, Hn, Hcont; (destruct n as [|n]; [lia|]).
  - destruct (read_loop_step n k pipe p a c buf i Hp Hb Hwf
                (cb_contents_nonempty _ _ _ Hwf Hcont) ltac:(lia))
      as (b' & c1 & Hcont1 & Hwf1 & Hcap1 & Hcnt1 & ->).
    rewrite Hcont in Hcont1. injection Hcont1 as <- Hcont1.
    rewrite Z.eqb_refl. exists c1. simpl.
    rewrite <- blit_cons, blit_nil by lia.
    split; [do 2 f_equal; lia|done].
  - apply not_elem_of_cons in Heof as [Hne Heof].
    destruct (read_loop_step n k pipe p a c buf i Hp Hb Hwf
                (cb_contents_nonempty _ _ _ Hwf Hcont) ltac:(lia))
      as (b' & c1 & Hcont1 & Hwf1 & Hcap1 & Hcnt1 & ->).
    rewrite Hcont in Hcont1. injection Hcont1 as <- Hcont1.
    rewrite (proj2 (Z.eqb_neq _ _)) by congruence.
    destruct (IH n (with_cb a c1 k) pipe p a c1 (<[Z.to_nat i := b]> buf) (i + 1) rest)
      as (c' & -> & Hwf' & Hcap' & Hcont').
    + done.
    + split; [apply Hb|apply with_cb_lookup].
    + done.
    + done.
    + done.
    + lia.
    + lia.
    + rewrite length_insert. lia.
    + exists c'. rewrite with_cb_twice, blit_cons by lia. simpl length.
      split; [do 2 f_equal; lia|].
      split; [done|]. split; [congruence|done].
Qed.

End loops.

(** ** Memory primitives *)

Section primitives.

Implicit Types (k : kernel) (t : task_t) (p : pipe_t) (c : circular_buffer).

Lemma fresh_lookup_None {V} (h : gmap positive V) : h !! fresh (dom h) = None.
Proof. apply not_elem_of_dom, is_fresh. Qed.

Lemma getpid_eq k : getpid k = Ret (current_pid k) k.
Proof. done. Qed.

Lemma get_eq k : get k = Ret k k.
Proof. done. Qed.

Lemma must_eq {A} (o : option A) (a : A) k : o = Some a → must o k = Ret a k.
Proof. by intros ->. Qed.

Lemma load_task_None k pid : tasks k !! pid = None → load_task pid k = Fault.
Proof. intros H. munfold. by rewrite H. Qed.

Lemma load_pipe_None k pipe : pipe_heap k !! pipe = None → load_pipe pipe k = Fault.
Proof. intros H. munfold. by rewrite H. Qed.

Lemma load_task_eq k pid t : tasks k !! pid = Some t → load_task pid k = Ret t k.
Proof. intros H. munfold. by rewrite H. Qed.

Lemma store_task_eq k pid t0 t :
  tasks k !! pid = Some t0 → store_task pid t k = Ret () (set_tasks <[pid := t]> k).
Proof. intros H. munfold. by rewrite H. Qed.

Lemma load_pipe_eq k pipe p : pipe_heap k !! pipe = Some p → load_pipe pipe k = Ret p k.
Proof. intros H. munfold. by rewrite H. Qed.

Lemma store_pipe_eq k pipe p0 p :
  pipe_heap k !! pipe = Some p0 →
  store_pipe pipe p k = Ret () (set_pipe_heap <[pipe := p]> k).
Proof. intros H. munfold. by rewrite H. Qed.

Lemma kmalloc_pipe_eq k p :
  kmalloc_pipe p k =
    Ret (fresh (dom (pipe_heap k))) (set_pipe_heap <[fresh (dom (pipe_heap k)) := p]> k).
Proof. done. Qed.

Lemma kfree_pipe_eq k pipe p :
  pipe_heap k !! pipe = Some p → kfree_pipe pipe k = Ret () (set_pipe_heap (delete pipe) k).
Proof. intros H. unfold kfree_pipe. munfold. by rewrite H. Qed.

Lemma load_cb_eq k a c : cb_heap k !! a = Some c → load_cb (Some a) k = Ret c k.
Proof. intros H. munfold. by rewrite H. Qed.

Lemma store_cb_eq k a c0 c :
  cb_heap k !! a = Some c0 → store_cb (Some a) c k = Ret () (with_cb a c k).
Proof. intros H. munfold. by rewrite H. Qed.

Lemma kmalloc_cb_eq k c :
  kmalloc_cb c k =
    Ret (fresh (dom (cb_heap k))) (set_cb_heap <[fresh (dom (cb_heap k)) := c]> k).
Proof. done. Qed.

Lemma kfree_cb_eq k a c :
  cb_heap k !! a = Some c → kfree_cb (Some a) k = Ret () (set_cb_heap (delete a) k).
Proof. intros H. unfold kfree_cb. munfold. by rewrite H. Qed.

End primitives.

(** Looks a key up in a heap built from inserts over known entries. *)
Ltac mlookup :=
  cbn [tasks pipe_heap cb_heap current_pid set_tasks set_pipe_heap set_cb_heap with_cb
       after_pipe_create after_pipe];
  first [ eassumption
        | apply lookup_insert_eq
        | rewrite lookup_insert_ne by (done || congruence); mlookup ].

(** Runs one primitive at the head of a computation. *)
Ltac mprim :=
  first [ apply getpid_eq | apply get_eq | apply kmalloc_pipe_eq | apply kmalloc_cb_eq
        | apply load_task_eq; mlookup
        | eapply store_task_eq; mlookup
        | apply load_pipe_eq; mlookup
        | eapply store_pipe_eq; mlookup
        | apply load_cb_eq; mlookup
        | eapply store_cb_eq; mlookup
        | eapply kfree_pipe_eq; mlookup
        | eapply kfree_cb_eq; mlookup
        | apply must_eq; first [reflexivity | eassumption]
        | reflexivity ].

(** Runs a computation made of primitives down to its result. *)
Ltac meval :=
  first [ mprim | erewrite bind_Ret by meval; cbv beta; meval ].

Ltac msimpl :=
  cbn [dir fd pids cb fd_max pipes max_size items fst snd
       tasks pipe_heap cb_heap current_pid set_tasks set_pipe_heap set_cb_heap].

Ltac mstep := erewrite bind_Ret by meval; cbv beta; msimpl.

Ltac mfinish :=
  unfold mret, M_ret, set_pipe_heap, set_tasks, set_cb_heap, array_m_create; msimpl.

(** ** Creation *)

Section creation.

Implicit Types (k : kernel) (t : task_t).

Lemma new_endpoint_eq d k t :
  tasks k !! current_pid k = Some t →
  let r := fresh (dom (pipe_heap k)) in
  new_endpoint d k =
    Ret r (mk_kernel (current_pid k)
             (<[current_pid k := mk_task (int_wrap (fd_max t + 1)) (pipes t)]> (tasks k))
             (<[r := mk_pipe d (fd_max t) (mk_array_m 32 [current_pid k]) None]> (pipe_heap k))
             (cb_heap k)).
Proof.
  intros Ht r. unfold new_endpoint, next_fd, pids_insert.
  do 4 mstep. mfinish. fold r.
  by rewrite insert_insert_eq.
Qed.

Lemma new_ends_distinct k : new_read_end k ≠ new_write_end k.
Proof.
  unfold new_write_end. intros Heq.
  pose proof (is_fresh ({[new_read_end k]} ∪ dom (pipe_heap k))) as Hf.
  rewrite <- Heq in Hf. set_solver.
Qed.

Lemma new_read_end_fresh k : pipe_heap k !! new_read_end k = None.
Proof. apply fresh_lookup_None. Qed.

Lemma new_write_end_fresh k : pipe_heap k !! new_write_end k = None.
Proof.
  apply not_elem_of_dom. unfold new_write_end.
  pose proof (is_fresh ({[new_read_end k]} ∪ dom (pipe_heap k))). set_solver.
Qed.

Lemma new_buffer_fresh k : cb_heap k !! new_buffer k = None.
Proof. apply fresh_lookup_None. Qed.

Lemma pipe_create_eq k t :
  tasks k !! current_pid k = Some t →
  pipe_create k = Ret (new_read_end k, new_write_end k) (after_pipe_create k t).
Proof.
  intros Ht. unfold pipe_create, set_cb.
  erewrite bind_Ret by (by apply new_endpoint_eq). cbv beta.
  erewrite bind_Ret by (eapply new_endpoint_eq; apply lookup_insert_eq).
  cbv beta. msimpl. rewrite dom_insert_L.
  fold (new_read_end k). fold (new_write_end k).
  pose proof (new_ends_distinct k) as Hrw.
  do 4 mstep. mfinish. fold (new_buffer k). unfold after_pipe_create. f_equal. f_equal.
  - by rewrite insert_insert_eq.
  - rewrite insert_insert_eq.
    rewrite (insert_insert_ne _ (new_read_end k) (new_write_end k)) by done.
    by rewrite insert_insert_eq.
Qed.

Lemma bind_Panic {A B} (m : M A) (f : A → M B) (k k' : kernel) e :
  m k = Panic e k' → (m ≫= f) k = Panic e k'.
Proof. intros H. unfold mbind, M_bind. by rewrite H. Qed.

Lemma registry_insert_eq k pid t pipe :
  tasks k !! pid = Some t → size (pipes t) < max_size (pipes t) →
  registry_insert pid pipe k =
    Ret () (set_tasks <[pid := mk_task (fd_max t)
                               (mk_array_m (max_size (pipes t)) (items (pipes t) ++ [pipe]))]> k).
Proof.
  intros Ht Hroom. unfold registry_insert. mstep. unfold array_m_insert.
  rewrite (proj2 (Z.ltb_lt _ _) Hroom). mstep. meval.
Qed.

(** [pipe] either stops in its assertion, with the task's list as it was,
    or returns the two fresh descriptors. *)
Lemma pipe_eq k t :
  tasks k !! current_pid k = Some t →
  pipe k =
    if size (pipes t) + 1 >=? max_size (pipes t)
    then Panic OutOfDescriptors (after_pipe_create k t)
    else Ret (fd_max t, int_wrap (fd_max t + 1)) (after_pipe k t).
Proof.
  intros Ht. unfold pipe. mstep.
  erewrite bind_Ret by (by apply pipe_create_eq). cbv beta. msimpl.
  pose proof (new_ends_distinct k) as Hrw.
  do 3 mstep.
  destruct (size (pipes t) + 1 >=? max_size (pipes t)) eqn:Hfull.
  - erewrite bind_Panic; done.
  - mstep.
    assert (size (pipes t) + 1 < max_size (pipes t)) as Hroom.
    { rewrite Z.geb_leb in Hfull. apply Z.leb_gt in Hfull. lia. }
    erewrite bind_Ret; cycle 1.
    { eapply registry_insert_eq; [unfold after_pipe_create; mlookup|]. msimpl. lia. }
    cbv beta. msimpl.
    erewrite bind_Ret; cycle 1.
    { eapply registry_insert_eq; [unfold after_pipe_create; mlookup|].
      unfold size; msimpl. rewrite length_app. unfold size in Hroom. simpl. lia. }
    mfinish. unfold after_pipe, after_pipe_create, set_tasks; msimpl.
    rewrite !insert_insert_eq, <- app_assoc. done.
Qed.

End creation.

(** ** Reading and writing through a descriptor *)

Section transfer.

Variable EOF : char.
Implicit Types (k : kernel) (p : pipe_t) (c : circular_buffer) (buf : list char).

Lemma find_pipe_frame k k' n r :
  current_pid k' = current_pid k → tasks k' = tasks k → pipe_heap k' = pipe_heap k →
  find_pipe n k = Ret r k → find_pipe n k' = Ret r k'.
Proof.
  intros Hpid Ht Hh Hf. apply find_pipe_inv in Hf as (_ & t & Htask & Hin).
  apply (find_pipe_intro n k' t); by rewrite ?Hpid, ?Ht, ?Hh.
Qed.

Lemma resolves_with_cb k n pipe p a c :
  resolves k n pipe p → resolves (with_cb a c k) n pipe p.
Proof.
  intros [Hf Hp]. split; [|done]. by apply (find_pipe_frame k).
Qed.

Lemma pipe_write_resolved k n pipe p buf cnt :
  resolves k n pipe p → dir p = WRITE →
  pipe_write n buf cnt k =
    (write_loop (Z.to_nat cnt) pipe buf 0 ≫= λ i, mret (OK i)) k.
Proof.
  intros [Hf Hp] Hd. unfold pipe_write.
  rewrite (bind_Ret _ _ _ _ _ Hf). mstep. rewrite Hd. by rewrite decide_False by auto.
Qed.

Lemma pipe_read_resolved k n pipe p buf cnt :
  resolves k n pipe p → dir p = READ →
  pipe_read EOF n buf cnt k =
    (read_loop EOF (Z.to_nat cnt) pipe buf 0 ≫= λ r,
     must (buf_set r.2 r.1 0) ≫= λ buf', mret (OK r.1, buf')) k.
Proof.
  intros [Hf Hp] Hd. unfold pipe_read.
  rewrite (bind_Ret _ _ _ _ _ Hf). mstep. rewrite Hd. by rewrite decide_False by auto.
Qed.

(** Writing to a full buffer stores nothing. *)
Lemma pipe_write_full k n pipe p a c buf cnt :
  resolves k n pipe p → dir p = WRITE → backed k p a c →
  count c = capacity c →
  pipe_write n buf cnt k = Ret (OK 0) k.
Proof.
  intros Hr Hd Hb Hfull. rewrite (pipe_write_resolved k n pipe p) by done.
  erewrite bind_Ret; [done|]. eapply write_loop_full; [apply Hr|done..].
Qed.

(** Writing a single byte to a buffer with room appends it. *)
Lemma pipe_write_byte k n pipe p a c b :
  resolves k n pipe p → dir p = WRITE → backed k p a c →
  cb_wf c → count c ≠ capacity c →
  ∃ c', pipe_write n [b] 1 k = Ret (OK 1) (with_cb a c' k) ∧
        cb_wf c' ∧ capacity c' = capacity c ∧ count c' = count c + 1 ∧
        cb_contents c' = cb_contents c ++ [b].
Proof.
  intros Hr Hd Hb Hwf Hroom. rewrite (pipe_write_resolved k n pipe p) by done.
  destruct (write_loop_run [b] 1 k pipe p a c [b] 0 []) as (c' & Hrun & Hrest);
    [apply Hr|done|done|done|done|by left|simpl; destruct Hwf as (_ & _ & ? & _); lia|].
  exists c'. split; [|done]. by rewrite (bind_Ret _ _ _ _ _ Hrun).
Qed.

(** Reading when no EOF byte is met: the oldest bytes [data] come out, as
    many as asked for or as the buffer holds, and the terminator follows
    them in the caller's block. *)
Lemma pipe_read_data k n pipe p a c buf data rest cnt :
  resolves k n pipe p → dir p = READ → backed k p a c → cb_wf c →
  cb_contents c = data ++ rest → EOF ∉ data →
  (Z.of_nat (length data) = cnt ∨ Z.of_nat (length data) ≤ cnt ∧ rest = []) →
  (length data < length buf)%nat →
  ∃ c', pipe_read EOF n buf cnt k =
          Ret (OK (Z.of_nat (length data)), <[length data := 0]> (blit buf 0 data))
              (with_cb a c' k) ∧
        cb_wf c' ∧ cb_contents c' = rest.
Proof.
  intros Hr Hd Hb Hwf Hcont Heof Hstop Hbuf.
  destruct (read_loop_run EOF data (Z.to_nat cnt) k pipe p a c buf 0 rest)
    as (c' & Hread & Hwf' & _ & Hcont');
    [apply Hr|done|done|done|done| |done|lia|].
  { destruct Hstop as [<-|[? ->]]; [left; lia|right; split; [lia|done]]. }
  exists c'. split; [|done].
  rewrite (pipe_read_resolved k n pipe p) by done.
  rewrite (bind_Ret _ _ _ _ _ Hread). cbn [fst snd].
  rewrite Z.add_0_l, buf_set_Some, Nat2Z.id; [done|].
  rewrite blit_length; simpl; lia.
Qed.

(** Writing when everything fits: all of [data] is appended. *)
Lemma pipe_write_data k n pipe p a c data :
  resolves k n pipe p → dir p = WRITE → backed k p a c → cb_wf c →
  count c + Z.of_nat (length data) ≤ capacity c →
  ∃ c', pipe_write n data (Z.of_nat (length data)) k =
          Ret (OK (Z.of_nat (length data))) (with_cb a c' k) ∧
        cb_wf c' ∧ cb_contents c' = cb_contents c ++ data.
Proof.
  intros Hr Hd Hb Hwf Hroom.
  destruct (write_loop_run data (length data) k pipe p a c data 0 [])
    as (c' & Hwrite & Hwf' & _ & _ & Hcont');
    [apply Hr|done|done|done|by rewrite app_nil_r|by left|done|].
  exists c'. split; [|done].
  rewrite (pipe_write_resolved k n pipe p) by done.
  by rewrite Nat2Z.id, (bind_Ret _ _ _ _ _ Hwrite).
Qed.

End transfer.

(** ** A fresh pipe *)

Section fresh_pipe.

Implicit Types (k : kernel) (t : task_t).

Lemma int_wrap_succ_ne x : int_wrap (x + 1) ≠ x.
Proof.
  unfold int_wrap. intros Heq.
  pose proof (Z.div_mod (x + 1 + 2 ^ 31) (2 ^ 32) ltac:(lia)) as Hdm.
  lia.
Qed.

(** Entries that are live and carry other descriptors are skipped. *)
Lemma find_pipe_in_skip h n l l' :
  Forall (λ q, ∃ v, h !! q = Some v ∧ fd v ≠ n) l →
  find_pipe_in h n (l ++ l') = find_pipe_in h n l'.
Proof.
  induction 1 as [|q l (v & Hq & Hfd) _ IH]; simpl; [done|].
  rewrite Hq. by rewrite (proj2 (Z.eqb_neq _ _) Hfd).
Qed.

Lemma after_pipe_old_entry k t q v :
  pipe_heap k !! q = Some v → pipe_heap (after_pipe k t) !! q = Some v.
Proof.
  intros Hq. cbn [after_pipe after_pipe_create set_tasks pipe_heap].
  rewrite !lookup_insert_ne; [done|..]; intros <-.
  - by rewrite new_read_end_fresh in Hq.
  - by rewrite new_write_end_fresh in Hq.
Qed.

Lemma after_pipe_task k t :
  tasks (after_pipe k t) !! current_pid (after_pipe k t) =
    Some (mk_task (int_wrap (int_wrap (fd_max t + 1) + 1))
            (mk_array_m (max_size (pipes t))
               (items (pipes t) ++ [new_read_end k; new_write_end k]))).
Proof. cbn [after_pipe after_pipe_create set_tasks tasks current_pid]. apply lookup_insert_eq. Qed.

Lemma after_pipe_read_end k t :
  pipe_heap (after_pipe k t) !! new_read_end k =
    Some (mk_pipe READ (fd_max t) (mk_array_m 32 [current_pid k]) (Some (new_buffer k))).
Proof.
  cbn [after_pipe after_pipe_create set_tasks pipe_heap].
  rewrite lookup_insert_ne by (apply not_eq_sym, new_ends_distinct).
  apply lookup_insert_eq.
Qed.

Lemma after_pipe_write_end k t :
  pipe_heap (after_pipe k t) !! new_write_end k =
    Some (mk_pipe WRITE (int_wrap (fd_max t + 1)) (mk_array_m 32 [current_pid k])
            (Some (new_buffer k))).
Proof. cbn [after_pipe after_pipe_create set_tasks pipe_heap]. apply lookup_insert_eq. Qed.

Lemma after_pipe_buffer k t :
  cb_heap (after_pipe k t) !! new_buffer k = Some (cb_init 64).
Proof. cbn [after_pipe after_pipe_create set_tasks cb_heap]. apply lookup_insert_eq. Qed.

(** Both new descriptors resolve to the new endpoints. *)
Lemma after_pipe_resolves k t :
  registry_fresh k t →
  resolves (after_pipe k t) (fd_max t) (new_read_end k)
    (mk_pipe READ (fd_max t) (mk_array_m 32 [current_pid k]) (Some (new_buffer k))) ∧
  resolves (after_pipe k t) (int_wrap (fd_max t + 1)) (new_write_end k)
    (mk_pipe WRITE (int_wrap (fd_max t + 1)) (mk_array_m 32 [current_pid k])
       (Some (new_buffer k))).
Proof.
  intros Hreg. split; (split; [|apply after_pipe_read_end || apply after_pipe_write_end]).
  - eapply find_pipe_intro; [apply after_pipe_task|]. cbn [pipes items].
    rewrite find_pipe_in_skip.
    + cbn [find_pipe_in]. rewrite after_pipe_read_end. cbn [fd]. by rewrite Z.eqb_refl.
    + eapply Forall_impl; [apply Hreg|]. intros q (v & Hq & Hr & Hw).
      exists v. split; [by apply after_pipe_old_entry|done].
  - eapply find_pipe_intro; [apply after_pipe_task|]. cbn [pipes items].
    rewrite find_pipe_in_skip.
    + cbn [find_pipe_in]. rewrite after_pipe_read_end. cbn [fd].
      rewrite (proj2 (Z.eqb_neq _ _)) by (apply not_eq_sym, int_wrap_succ_ne).
      rewrite after_pipe_write_end. cbn [fd]. by rewrite Z.eqb_refl.
    + eapply Forall_impl; [apply Hreg|]. intros q (v & Hq & Hr & Hw).
      exists v. split; [by apply after_pipe_old_entry|done].
Qed.

End fresh_pipe.

(** ** Closing *)

Section closing.

Variable EOF : char.
Implicit Types (k : kernel) (p : pipe_t) (t : task_t) (c : circular_buffer).

Lemma index_from_Some {A} `{EqDecision A} (x : A) (l : list A) (i j : Z) :
  index_from x l i = Some j → i ≤ j ∧ l !! Z.to_nat (j - i) = Some x.
Proof.
  revert i. induction l as [|y l IH]; intros i; simpl; [done|].
  destruct (decide (y = x)) as [->|Hne].
  - intros [= <-]. rewrite Z.sub_diag. split; [lia|done].
  - intros H0. apply IH in H0 as [Hle Hl]. split; [lia|].
    replace (Z.to_nat (j - i)) with (S (Z.to_nat (j - (i + 1)))) by lia. done.
Qed.

Lemma index_from_elem {A} `{EqDecision A} (x : A) (l : list A) (i : Z) :
  x ∈ l → is_Some (index_from x l i).
Proof.
  revert i. induction l as [|y l IH]; intros i Hin; [by apply elem_of_nil in Hin|].
  simpl. destruct (decide (y = x)); [eauto|].
  apply IH. apply elem_of_cons in Hin as [->|]; done.
Qed.

(** The release steps of [pipe_close], with the loads resolved. *)
Lemma pipe_close_release_eq k pipe p t :
  pipe_heap k !! pipe = Some p → tasks k !! current_pid k = Some t →
  pipe_close_release pipe k =
    match array_m_index (pids p) (current_pid k) with
    | None => Ret (CloseError NotOwned) k
    | Some i =>
        let k1 := set_pipe_heap <[pipe := without_owner p i]> k in
        match array_m_index (pipes t) pipe with
        | None => Ret (CloseError NotRegistered) k1
        | Some j =>
            let k2 := set_tasks <[current_pid k := without_entry t j]> k1 in
            if size (pids (without_owner p i)) =? 0 then
              ((if decide (dir p = READ) then kfree_cb (cb p) else mret ()) ≫= λ _,
               kfree_pipe pipe ≫= λ _, mret Closed) k2
            else Ret Closed k2
        end
    end.
Proof.
  intros Hp Ht. unfold pipe_close_release. do 2 mstep.
  destruct (array_m_index (pids p) (current_pid k)) as [i|]; [|done].
  do 2 mstep.
  destruct (array_m_index (pipes t) pipe) as [j|]; [|done].
  do 2 mstep. fold (without_owner p i). fold (without_entry t j).
  cbn [without_owner pids].
  by destruct (size (array_m_remove (pids p) i) =? 0).
Qed.

(** Lines 151-157 either do nothing or write one EOF byte. *)
Lemma pipe_close_eof_eq k n pipe p t :
  resolves k n pipe p → tasks k !! current_pid k = Some t →
  pipe_close_eof EOF n pipe k =
    if bool_decide (dir p = WRITE) && (size (pipes t) =? 1)
    then (pipe_write n [EOF] 1 ≫= λ _, mret ()) k
    else Ret () k.
Proof.
  intros [Hf Hp] Ht. unfold pipe_close_eof. do 2 mstep.
  destruct (bool_decide (dir p = WRITE)); cbn [andb].
  - rewrite bind_assoc. mstep. mstep. by destruct (size (pipes t) =? 1).
  - by mstep.
Qed.

Lemma pipe_close_resolved k n pipe p :
  resolves k n pipe p →
  pipe_close EOF n k = (pipe_close_eof EOF n pipe ≫= λ _, pipe_close_release pipe) k.
Proof. intros [Hf Hp]. unfold pipe_close. by rewrite (bind_Ret _ _ _ _ _ Hf). Qed.

(** Writing one byte never leaves defined behaviour on a live buffer. *)
Lemma pipe_write_one k n pipe p a c b :
  resolves k n pipe p → dir p = WRITE → backed k p a c →
  pipe_write n [b] 1 k =
    Ret (OK (if count c =? capacity c then 0 else 1))
        (with_cb a (default c (cb_push_back c b)) k).
Proof.
  intros Hr Hd [Ha Hc]. rewrite (pipe_write_resolved k n pipe p) by done.
  change (Z.to_nat 1) with 1%nat. cbn [write_loop].
  destruct Hr as [_ Hp]. rewrite bind_assoc. mstep. rewrite Ha, bind_assoc. mstep.
  unfold cb_push_back.
  destruct (count c =? capacity c) eqn:Hfull.
  - cbn [default]. by rewrite with_cb_id.
  - cbn [default]. rewrite bind_assoc. mstep. rewrite bind_assoc. mstep. done.
Qed.

(** The EOF step always returns, changing at most the endpoint's buffer. *)
Lemma pipe_close_eof_total k n pipe p a c :
  resolves k n pipe p → backed k p a c →
  ∃ c', pipe_close_eof EOF n pipe k = Ret () (with_cb a c' k).
Proof.
  intros Hr Hb. destruct (resolves_task _ _ _ _ Hr) as (t & Ht & _).
  rewrite (pipe_close_eof_eq k n pipe p t) by done.
  destruct (bool_decide (dir p = WRITE)) eqn:Hd; cbn [andb].
  - apply bool_decide_eq_true in Hd.
    destruct (size (pipes t) =? 1).
    + eexists. erewrite bind_Ret by (by eapply pipe_write_one). done.
    + exists c. rewrite with_cb_id; [done|apply Hb].
  - exists c. rewrite with_cb_id; [done|apply Hb].
Qed.

End closing.

(** * The claims *)

(** C1 (as amended): a WRITE endpoint is closed by a task whose list of
    pipes has exactly one entry, and the endpoint's live ring buffer has
    room.  Then the EOF byte is written through [pipe_write] on the
    state as it was on entry, with the task's list and the endpoint's
    [pids] still intact, so that [pipe_write] resolves the descriptor and
    stores the byte as the newest element of the buffer; the removal
    steps of [pipe_close] run on the state this write leaves behind. *)
Theorem close_writes_eof_before_removal (EOF : char) (k : kernel) (n : Z)
    (pipe : loc) (p : pipe_t) (t : task_t) (a : loc) (c : circular_buffer) :
  resolves k n pipe p → dir p = WRITE →
  tasks k !! current_pid k = Some t → size (pipes t) = 1 →
  backed k p a c → cb_wf c → count c ≠ capacity c →
  ∃ k1 c1,
    pipe_write n [EOF] 1 k = Ret (OK 1) k1 ∧
    tasks k1 = tasks k ∧ pipe_heap k1 = pipe_heap k ∧
    cb_heap k1 !! a = Some c1 ∧ cb_contents c1 = cb_contents c ++ [EOF] ∧
    pipe_close EOF n k = pipe_close_release pipe k1.
Proof.
  intros Hr Hd Ht Hsize Hb Hwf Hroom.
  destruct (pipe_write_byte k n pipe p a c EOF Hr Hd Hb Hwf Hroom)
    as (c1 & Hwrite & _ & _ & _ & Hcont).
  exists (with_cb a c1 k), c1. split; [done|].
  split; [done|]. split; [done|]. split; [apply with_cb_lookup|]. split; [done|].
  rewrite (pipe_close_resolved EOF k n pipe p Hr).
  erewrite bind_Ret; [done|].
  rewrite (pipe_close_eof_eq EOF k n pipe p t Hr Ht).
  rewrite Hsize, Z.eqb_refl, bool_decide_eq_true_2 by done. cbn [andb].
  by rewrite (bind_Ret _ _ _ _ _ Hwrite).
Qed.

Lemma close_writes_eof_before_removal_witness :
  resolves (k_shared cb_hi) 1 2%positive w_shared ∧
  ∃ k1 c1,
    pipe_write 1 [EOF_byte] 1 (k_shared cb_hi) = Ret (OK 1) k1 ∧
    tasks k1 = tasks (k_shared cb_hi) ∧ pipe_heap k1 = pipe_heap (k_shared cb_hi) ∧
    cb_heap k1 !! 1%positive = Some c1 ∧
    cb_contents c1 = cb_contents cb_hi ++ [EOF_byte] ∧
    pipe_close EOF_byte 1 (k_shared cb_hi) = pipe_close_release 2%positive k1.
Proof.
  assert (resolves (k_shared cb_hi) 1 2%positive w_shared) as Hr
    by (split; vm_compute; reflexivity).
  split; [exact Hr|].
  apply (close_writes_eof_before_removal EOF_byte (k_shared cb_hi) 1 2%positive w_shared
           (mk_task 2 (mk_array_m 3 [2%positive])) 1%positive cb_hi).
  - exact Hr.
  - reflexivity.
  - vm_compute; reflexivity.
  - reflexivity.
  - split; vm_compute; reflexivity.
  - unfold cb_wf, cb_hi; simpl. repeat split; lia.
  - simpl; lia.
Defined.

(** C1 as stated fails when the buffer is already full: the last-writer
    condition holds, [pipe_write] is called first and resolves the
    descriptor, yet it stores nothing, and after the close the buffer
    holds the same 64 bytes, none of them EOF. *)
Lemma close_writes_eof_counterexample :
  resolves (k_shared cb_full) 1 2%positive w_shared ∧
  dir w_shared = WRITE ∧
  tasks (k_shared cb_full) !! current_pid (k_shared cb_full) =
    Some (mk_task 2 (mk_array_m 3 [2%positive])) ∧
  size (mk_array_m 3 [2%positive]) = 1 ∧
  pipe_write 1 [EOF_byte] 1 (k_shared cb_full) = Ret (OK 0) (k_shared cb_full) ∧
  ∃ k', pipe_close EOF_byte 1 (k_shared cb_full) = Ret Closed k' ∧
        cb_contents <$> cb_heap k' !! 1%positive = Some (replicate 64 120).
Proof.
  split; [split; vm_compute; reflexivity|].
  split; [reflexivity|]. split; [vm_compute; reflexivity|]. split; [reflexivity|].
  split; [vm_compute; reflexivity|].
  eexists. split; vm_compute; reflexivity.
Qed.

(** The same step leaves defined behaviour when the buffer is gone: a
    task that closes the READ endpoint of its own pipe first releases the
    buffer, and closing the WRITE endpoint, then the only entry of its
    list, writes the EOF byte through the dangling pointer. *)
Lemma close_write_end_after_read_end :
  ∃ k1 k2, pipe k_boot = Ret (0, 1) k1 ∧
           pipe_close EOF_byte 0 k1 = Ret Closed k2 ∧
           pipe_close EOF_byte 1 k2 = Fault.
Proof. eexists _, _. split; [|split]; vm_compute; reflexivity. Qed.

(** C3 (as amended): a task with room for two more endpoints, whose
    list holds live endpoints only, none of them carrying either of the
    two descriptors about to be handed out ([registry_fresh]), calls
    [pipe], writes [bytes] (at most 64 of them, none equal to EOF)
    through the WRITE descriptor and reads as many bytes through the
    READ descriptor into a block that has more cells than there are
    bytes, so that the terminator fits.  All three calls return, both
    counts are the length of [bytes], and the block starts with exactly
    [bytes], in order. *)
Theorem pipe_round_trip (EOF : char) (k : kernel) (t : task_t)
    (bytes buf : list char) :
  tasks k !! current_pid k = Some t →
  registry_fresh k t →
  size (pipes t) + 1 < max_size (pipes t) →
  (length bytes ≤ 64)%nat →
  EOF ∉ bytes →
  (length bytes < length buf)%nat →
  let N := Z.of_nat (length bytes) in
  ∃ rfd wfd k1 k2 k3 buf',
    pipe k = Ret (rfd, wfd) k1 ∧
    pipe_write wfd bytes N k1 = Ret (OK N) k2 ∧
    pipe_read EOF rfd buf N k2 = Ret (OK N, buf') k3 ∧
    take (length bytes) buf' = bytes.
Proof.
  intros Ht Hreg Hroom Hlen Heof Hbuf N.
  destruct (after_pipe_resolves k t Hreg) as [Hr Hw].
  pose proof (after_pipe_buffer k t) as Hc.
  set (k1 := after_pipe k t) in *.
  (* the write stores all of [bytes] in the empty buffer *)
  destruct (pipe_write_data k1 _ _ _ (new_buffer k) (cb_init 64) bytes Hw)
    as (c1 & Hwrite & Hwf1 & Hcont1);
    [done|done|by apply cb_init_wf|simpl; lia|].
  rewrite cb_init_contents, app_nil_l in Hcont1.
  (* the read, through the other endpoint, finds them in the same buffer *)
  destruct (pipe_read_data EOF (with_cb (new_buffer k) c1 k1) _ _ _ (new_buffer k) c1
              buf bytes [] N (resolves_with_cb _ _ _ _ _ _ Hr))
    as (c2 & Hread & _);
    [done|split; [done|apply with_cb_lookup]|done|by rewrite app_nil_r|done|by left|done|].
  eexists _, _, k1, _, _, _. split; [|split; [exact Hwrite|split; [exact Hread|]]].
  - rewrite (pipe_eq k t Ht).
    by rewrite Z.geb_leb, (proj2 (Z.leb_gt _ _)) by lia.
  - rewrite take_insert_ge by lia.
    apply (blit_take buf 0 bytes); [lia|simpl; lia].
Qed.

Lemma pipe_round_trip_witness :
  ∃ rfd wfd k1 k2 k3 buf',
    pipe k_boot = Ret (rfd, wfd) k1 ∧
    pipe_write wfd [104; 105] 2 k1 = Ret (OK 2) k2 ∧
    pipe_read EOF_byte rfd [0; 0; 0] 2 k2 = Ret (OK 2, buf') k3 ∧
    take 2 buf' = [104; 105].
Proof.
  apply (pipe_round_trip EOF_byte k_boot t_boot [104; 105] [0; 0; 0]).
  - vm_compute; reflexivity.
  - apply Forall_nil_2.
  - reflexivity.
  - simpl; lia.
  - rewrite !not_elem_of_cons. unfold EOF_byte.
    split; [lia|]. split; [lia|]. apply not_elem_of_nil.
  - simpl; lia.
Defined.

(** C3 as stated fails in each of the four ways the amended statement
    rules out.  A sequence that contains the EOF byte: all of "hi" and
    the EOF byte is written, but the read of 3 bytes stops at the EOF
    byte and does not return the 3 bytes.  A list that already holds an
    endpoint carrying the descriptor handed out for reading: [pipe]
    returns, the write stores both bytes, but descriptor 0 resolves to
    the older WRITE endpoint and the read is refused.  A list with an
    entry that has been released: [pipe] returns, and the write faults
    while it scans the list.  A block of exactly as many cells as bytes
    were asked for: the terminator is stored past its end. *)
Lemma pipe_round_trip_counterexample :
  (∃ k1 k2 k3 buf',
    pipe k_boot = Ret (0, 1) k1 ∧
    pipe_write 1 [104; 105; EOF_byte] 3 k1 = Ret (OK 3) k2 ∧
    pipe_read EOF_byte 0 [0; 0; 0; 0] 3 k2 = Ret (OK 1, buf') k3 ∧
    take 3 buf' ≠ [104; 105; EOF_byte]) ∧
  (∃ k1 k2,
    pipe k_clash = Ret (0, 1) k1 ∧
    pipe_write 1 [104; 105] 2 k1 = Ret (OK 2) k2 ∧
    pipe_read EOF_byte 0 [0; 0; 0] 2 k2 = Ret (Error WrongDirection, [0; 0; 0]) k2) ∧
  (∃ k1,
    pipe k_dangling = Ret (0, 1) k1 ∧
    pipe_write 1 [104; 105] 2 k1 = Fault) ∧
  (∃ k1 k2,
    pipe k_boot = Ret (0, 1) k1 ∧
    pipe_write 1 [104; 105] 2 k1 = Ret (OK 2) k2 ∧
    pipe_read EOF_byte 0 [0; 0] 2 k2 = Fault).
Proof.
  split; [|split; [|split]].
  - eexists _, _, _, _.
    split; [vm_compute; reflexivity|].
    split; [vm_compute; reflexivity|].
    split; [vm_compute; reflexivity|].
    vm_compute. discriminate.
  - eexists _, _.
    split; [vm_compute; reflexivity|].
    split; vm_compute; reflexivity.
  - eexists. split; vm_compute; reflexivity.
  - eexists _, _.
    split; [vm_compute; reflexivity|].
    split; vm_compute; reflexivity.
Qed.

(** C2: when the closing task is the endpoint's only owner, [pipe_close]
    returns with the endpoint released from the pipe heap, and the ring
    buffer it pointed to is released exactly when the endpoint is a READ
    endpoint; behind a WRITE endpoint the buffer stays allocated. *)
Theorem close_last_owner_teardown (EOF : char) (k : kernel) (n : Z)
    (pipe : loc) (p : pipe_t) (a : loc) (c : circular_buffer) :
  resolves k n pipe p → backed k p a c →
  items (pids p) = [current_pid k] →
  ∃ k', pipe_close EOF n k = Ret Closed k' ∧
        pipe_heap k' !! pipe = None ∧
        (cb_heap k' !! a = None ↔ dir p = READ).
Proof.
  intros Hr Hb Hown.
  destruct (resolves_task _ _ _ _ Hr) as (t & Ht & Hin).
  destruct (pipe_close_eof_total EOF k n pipe p a c Hr Hb) as (c' & Heof).
  rewrite (pipe_close_resolved EOF k n pipe p Hr), (bind_Ret _ _ _ _ _ Heof).
  rewrite (pipe_close_release_eq (with_cb a c' k) pipe p t) by (done || apply Hr).
  unfold array_m_index. cbn [with_cb set_cb_heap current_pid]. rewrite Hown.
  cbn [index_from]. rewrite decide_True by done.
  destruct (index_from_elem pipe (items (pipes t)) 0 Hin) as [j ->].
  assert (size (pids (without_owner p 0)) = 0) as ->.
  { unfold size, without_owner, array_m_remove; simpl. by rewrite Hown. }
  rewrite Z.eqb_refl.
  destruct Hb as [Ha Hc]. rewrite Ha.
  destruct (decide (dir p = READ)) as [Hd|Hd].
  - mstep. erewrite bind_Ret by (eapply kfree_pipe_eq; apply lookup_insert_eq).
    eexists. split; [done|]. unfold set_pipe_heap, set_cb_heap; msimpl.
    rewrite !lookup_delete_eq. done.
  - mstep. erewrite bind_Ret by (eapply kfree_pipe_eq; apply lookup_insert_eq).
    eexists. split; [done|]. unfold set_pipe_heap, set_cb_heap; msimpl.
    rewrite lookup_delete_eq, with_cb_lookup. split; [done|]. split; done.
Qed.

Lemma close_last_owner_teardown_witness :
  ∃ k', pipe_close EOF_byte 0 k_piped = Ret Closed k' ∧
        pipe_heap k' !! 1%positive = None ∧
        (cb_heap k' !! 1%positive = None ↔ dir r_piped = READ).
Proof.
  apply (close_last_owner_teardown EOF_byte k_piped 0 1%positive r_piped 1%positive
           (cb_init 64)).
  - split; vm_compute; reflexivity.
  - split; vm_compute; reflexivity.
  - reflexivity.
Defined.

(** What [pipe_read] does when it meets EOF after the bytes [data]: it
    hands back one byte less than it took out before the EOF byte. *)
Lemma pipe_read_meets_eof (EOF : char) (k : kernel) (n : Z) (pipe : loc) (p : pipe_t)
    (a : loc) (c : circular_buffer) (buf data rest : list char) (cnt : Z) :
  resolves k n pipe p → dir p = READ → backed k p a c → cb_wf c →
  cb_contents c = data ++ EOF :: rest → EOF ∉ data →
  (1 ≤ length data)%nat →
  Z.of_nat (length data) < cnt → Z.of_nat (length data) < Z.of_nat (length buf) →
  ∃ buf' k', pipe_read EOF n buf cnt k = Ret (OK (Z.of_nat (length data) - 1), buf') k'.
Proof.
  intros Hr Hd Hb Hwf Hcont Heof Hne Hcnt Hbuf.
  destruct (read_loop_eof EOF data (Z.to_nat cnt) k pipe p a c buf 0 rest)
    as (c' & Hread & _); [apply Hr|done|done|done|done|lia|done|lia|].
  rewrite (pipe_read_resolved EOF k n pipe p) by done.
  rewrite (bind_Ret _ _ _ _ _ Hread). cbn [fst snd]. rewrite Z.add_0_l.
  rewrite buf_set_Some; [by eauto|].
  rewrite blit_length; rewrite ?length_app; simpl; lia.
Qed.

(** C4: the buffer holds "hi" followed by the EOF byte and the caller
    asks for up to 8 bytes.  Two bytes come out before the EOF byte, yet
    [pipe_read] returns 1: the [i--] taken on EOF discounts a data byte,
    since the [break] already skips the increment for the EOF byte, and
    the terminator then overwrites the second data byte. *)
Theorem read_eof_discounts_a_data_byte :
  resolves (with_cb 1%positive cb_hi_eof k_piped) 0 1%positive r_piped ∧
  cb_contents cb_hi_eof = [104; 105; EOF_byte] ∧
  ∃ k', pipe_read EOF_byte 0 (replicate 8 0) 8 (with_cb 1%positive cb_hi_eof k_piped) =
          Ret (OK 1, [104; 0; EOF_byte; 0; 0; 0; 0; 0]) k' ∧
        cb_contents <$> cb_heap k' !! 1%positive = Some [].
Proof.
  split; [split; vm_compute; reflexivity|]. split; [vm_compute; reflexivity|].
  eexists. split; vm_compute; reflexivity.
Qed.

(** C5: one [pipe_write] of [capacity + K] bytes, [K] at least 1, into
    an empty ring buffer returns exactly [capacity]; any further
    [pipe_write] on that descriptor, with no read in between, returns 0
    and changes nothing.  ([pipe_create] fixes the capacity at 64, see
    [after_pipe_create].) *)
Theorem write_stops_at_capacity (k : kernel) (n : Z) (pipe : loc) (p : pipe_t)
    (a : loc) (c : circular_buffer) (buf : list char) (K : Z) :
  resolves k n pipe p → dir p = WRITE → backed k p a c →
  cb_wf c → count c = 0 →
  1 ≤ K → Z.of_nat (length buf) = capacity c + K →
  ∃ k1, pipe_write n buf (capacity c + K) k = Ret (OK (capacity c)) k1 ∧
        ∀ buf' cnt', pipe_write n buf' cnt' k1 = Ret (OK 0) k1.
Proof.
  intros Hr Hd Hb Hwf Hempty HK Hlen.
  pose proof Hwf as (Hcap & _).
  destruct (write_loop_run (take (Z.to_nat (capacity c)) buf) (Z.to_nat (capacity c + K))
              k pipe p a c buf 0 (drop (Z.to_nat (capacity c)) buf))
    as (c' & Hrun & Hwf' & Hcap' & Hcnt' & _).
  - apply Hr.
  - done.
  - done.
  - done.
  - by rewrite take_drop.
  - right. rewrite length_take. lia.
  - rewrite length_take. lia.
  - rewrite length_take in Hrun, Hcnt'.
    replace (Z.of_nat (Z.to_nat (capacity c) `min` length buf)) with (capacity c) in * by lia.
    exists (with_cb a c' k). split.
    + rewrite (pipe_write_resolved k n pipe p) by done.
      by rewrite (bind_Ret _ _ _ _ _ Hrun).
    + intros buf' cnt'. apply (pipe_write_full _ n pipe p a c').
      * by apply resolves_with_cb.
      * done.
      * split; [apply Hb|apply with_cb_lookup].
      * lia.
Qed.

Lemma write_stops_at_capacity_witness :
  ∃ k1, pipe_write 1 (replicate 65 7) (capacity (cb_init 64) + 1) k_piped =
          Ret (OK (capacity (cb_init 64))) k1 ∧
        ∀ buf' cnt', pipe_write 1 buf' cnt' k1 = Ret (OK 0) k1.
Proof.
  apply (write_stops_at_capacity k_piped 1 2%positive w_piped 1%positive
           (cb_init 64) (replicate 65 7) 1).
  - split; vm_compute; reflexivity.
  - reflexivity.
  - split; vm_compute; reflexivity.
  - apply cb_init_wf. lia.
  - reflexivity.
  - lia.
  - reflexivity.
Defined.

(** C6: on a descriptor that resolves to a READ endpoint [pipe_write]
    reports the wrong direction and returns with the whole kernel state,
    ring buffers included, as it was; so does [pipe_read] on a
    descriptor that resolves to a WRITE endpoint, which also leaves the
    caller's block alone. *)
Theorem wrong_direction_rejected (k : kernel) (n : Z) (pipe : loc) (p : pipe_t)
    (EOF : char) (buf : list char) (cnt : Z) :
  resolves k n pipe p →
  (dir p = READ → pipe_write n buf cnt k = Ret (Error WrongDirection) k) ∧
  (dir p = WRITE → pipe_read EOF n buf cnt k = Ret (Error WrongDirection, buf) k).
Proof.
  intros [Hf Hp]. split; intros Hd.
  - unfold pipe_write. rewrite (bind_Ret _ _ _ _ _ Hf).
    munfold. simpl. rewrite Hp. simpl. rewrite Hd. by rewrite decide_True.
  - unfold pipe_read. rewrite (bind_Ret _ _ _ _ _ Hf).
    munfold. simpl. rewrite Hp. simpl. rewrite Hd. by rewrite decide_True.
Qed.

Lemma wrong_direction_rejected_witness :
  pipe_write 0 [7] 1 k_piped = Ret (Error WrongDirection) k_piped ∧
  pipe_read EOF_byte 1 [0; 0] 1 k_piped = Ret (Error WrongDirection, [0; 0]) k_piped.
Proof.
  split.
  - apply (wrong_direction_rejected k_piped 0 1%positive r_piped EOF_byte [7] 1).
    + split; vm_compute; reflexivity.
    + reflexivity.
  - apply (wrong_direction_rejected k_piped 1 2%positive w_piped EOF_byte [0; 0] 1).
    + split; vm_compute; reflexivity.
    + reflexivity.
Defined.

(** When another owner remains, the release steps keep the endpoint and
    leave the heap of ring buffers alone. *)
Lemma pipe_close_release_shared (k : kernel) (pipe : loc) (p : pipe_t) (t : task_t)
    (i : Z) :
  pipe_heap k !! pipe = Some p → tasks k !! current_pid k = Some t →
  pipe ∈ items (pipes t) →
  array_m_index (pids p) (current_pid k) = Some i →
  size (pids (without_owner p i)) ≠ 0 →
  ∃ k', pipe_close_release pipe k = Ret Closed k' ∧
        pipe_heap k' !! pipe = Some (without_owner p i) ∧
        cb_heap k' = cb_heap k.
Proof.
  intros Hp Ht Hin Hi Hrem. rewrite (pipe_close_release_eq k pipe p t Hp Ht), Hi.
  destruct (index_from_elem pipe (items (pipes t)) 0 Hin) as [j Hj].
  unfold array_m_index at 1. rewrite Hj. cbv zeta.
  rewrite (proj2 (Z.eqb_neq _ _) Hrem).
  eexists. split; [done|]. split; [apply lookup_insert_eq|done].
Qed.

(** C7: task 2 closes a WRITE endpoint that task 1 references as well,
    and it is the only entry of task 2's list.  The endpoint stays
    allocated with task 1 as its owner, but the buffer does not stay
    untouched: the test on the size of the task's list lets an EOF byte
    in although another task still holds the endpoint open. *)
Theorem close_shared_endpoint_writes_eof :
  resolves (k_shared cb_hi) 1 2%positive w_shared ∧
  items (pids w_shared) = [1; 2] ∧
  cb_contents cb_hi = [104; 105] ∧
  ∃ k', pipe_close EOF_byte 1 (k_shared cb_hi) = Ret Closed k' ∧
        (items ∘ pids) <$> pipe_heap k' !! 2%positive = Some [1] ∧
        cb_contents <$> cb_heap k' !! 1%positive = Some [104; 105; EOF_byte].
Proof.
  split; [split; vm_compute; reflexivity|].
  split; [reflexivity|]. split; [vm_compute; reflexivity|].
  eexists. split; [vm_compute; reflexivity|]. split; vm_compute; reflexivity.
Qed.

(** C8: when the task's list cannot take two more endpoints, [pipe]
    stops in its assertion (out of descriptors).  At that point the
    task's list is what it was, and every endpoint and ring buffer that
    existed before is still there, unchanged. *)
Theorem pipe_out_of_descriptors (k : kernel) (t : task_t) :
  tasks k !! current_pid k = Some t →
  max_size (pipes t) < size (pipes t) + 2 →
  ∃ k', pipe k = Panic OutOfDescriptors k' ∧
        pipes <$> tasks k' !! current_pid k' = Some (pipes t) ∧
        (∀ q v, pipe_heap k !! q = Some v → pipe_heap k' !! q = Some v) ∧
        (∀ a c, cb_heap k !! a = Some c → cb_heap k' !! a = Some c).
Proof.
  intros Ht Hfull. exists (after_pipe_create k t). split; [|split; [|split]].
  - rewrite (pipe_eq k t Ht).
    by rewrite Z.geb_leb, (proj2 (Z.leb_le _ _)) by lia.
  - cbn [after_pipe_create tasks current_pid]. by rewrite lookup_insert_eq.
  - intros q v Hq. cbn [after_pipe_create pipe_heap].
    rewrite !lookup_insert_ne; [done|..]; intros <-.
    + by rewrite new_read_end_fresh in Hq.
    + by rewrite new_write_end_fresh in Hq.
  - intros a c Ha. cbn [after_pipe_create cb_heap].
    rewrite lookup_insert_ne; [done|]. intros <-. by rewrite new_buffer_fresh in Ha.
Qed.

Lemma pipe_out_of_descriptors_witness :
  ∃ k', pipe k_piped = Panic OutOfDescriptors k' ∧
        pipes <$> tasks k' !! current_pid k' = Some (pipes t_piped) ∧
        (∀ q v, pipe_heap k_piped !! q = Some v → pipe_heap k' !! q = Some v) ∧
        (∀ a c, cb_heap k_piped !! a = Some c → cb_heap k' !! a = Some c).
Proof.
  apply (pipe_out_of_descriptors k_piped t_piped).
  - vm_compute; reflexivity.
  - reflexivity.
Defined.





(** The release steps of [pipe_close] (lines 159-190) taken on their
    own, entered with an arbitrary endpoint: were they to report that
    the endpoint is not in the task's list, the task would already have
    been taken out of the endpoint's [pids], and nothing would put it
    back.  [pipe_close] itself never enters them in such a state, see
    [pipe_close_always_registered] below. *)
Lemma close_not_registered_keeps_removal (k k' : kernel) (pipe : loc) :
  pipe_close_release pipe k = Ret (CloseError NotRegistered) k' →
  ∃ p i,
    pipe_heap k !! pipe = Some p ∧
    items (pids p) !! Z.to_nat i = Some (current_pid k) ∧
    k' = set_pipe_heap <[pipe := without_owner p i]> k ∧
    items (pids (without_owner p i)) = delete (Z.to_nat i) (items (pids p)) ∧
    k' ≠ k.
Proof.
  intros Hclose.
  destruct (pipe_heap k !! pipe) as [p|] eqn:Hp; cycle 1.
  { unfold pipe_close_release in Hclose. revert Hclose. mstep.
    by erewrite bind_Fault by (by apply load_pipe_None). }
  assert (∃ i, array_m_index (pids p) (current_pid k) = Some i ∧
               k' = set_pipe_heap <[pipe := without_owner p i]> k) as (i & Hi & ->).
  { destruct (tasks k !! current_pid k) as [t|] eqn:Ht.
    - rewrite (pipe_close_release_eq k pipe p t Hp Ht) in Hclose.
      destruct (array_m_index (pids p) (current_pid k)) as [i|]; [|done].
      cbv zeta in Hclose.
      destruct (array_m_index (pipes t) pipe) as [j|].
      + destruct (size (pids (without_owner p i)) =? 0); [|done].
        apply bind_inv_Ret in Hclose as (_ & k1 & _ & Hclose).
        apply bind_inv_Ret in Hclose as (_ & k2 & _ & Hclose). done.
      + injection Hclose as <-. eauto.
    - unfold pipe_close_release in Hclose. revert Hclose. do 2 mstep.
      destruct (array_m_index (pids p) (current_pid k)) as [i|]; [|done].
      mstep. by erewrite bind_Fault by (by apply load_task_None). }
  apply index_from_Some in Hi as [Hle Hi]. rewrite Z.sub_0_r in Hi.
  exists p, i. split; [done|]. split; [done|]. split; [done|]. split; [done|].
  intros Heq. apply (f_equal (λ s, items ∘ pids <$> pipe_heap s !! pipe)) in Heq.
  cbn [set_pipe_heap pipe_heap] in Heq. rewrite lookup_insert_eq, Hp in Heq.
  injection Heq as Heq. cbn [without_owner pids array_m_remove items] in Heq.
  apply (f_equal length) in Heq. rewrite length_delete in Heq by eauto.
  apply lookup_lt_Some in Hi. lia.
Qed.

Lemma close_not_registered_keeps_removal_witness :
  let k' := set_pipe_heap <[2%positive := without_owner w_shared 1]> k_unlisted in
  pipe_close_release 2%positive k_unlisted = Ret (CloseError NotRegistered) k' ∧
  ∃ p i,
    pipe_heap k_unlisted !! 2%positive = Some p ∧
    items (pids p) !! Z.to_nat i = Some (current_pid k_unlisted) ∧
    k' = set_pipe_heap <[2%positive := without_owner p i]> k_unlisted ∧
    items (pids (without_owner p i)) = delete (Z.to_nat i) (items (pids p)) ∧
    k' ≠ k_unlisted.
Proof.
  intros k'.
  assert (pipe_close_release 2%positive k_unlisted = Ret (CloseError NotRegistered) k')
    as Hclose by (vm_compute; reflexivity).
  split; [exact Hclose|].
  exact (close_not_registered_keeps_removal k_unlisted k' 2%positive Hclose).
Defined.



(** * Further properties of pipe.c *)

(** ** Descriptor resolution *)

Lemma find_pipe_in_None (h : gmap positive pipe_t) (n : Z) (l : list loc) :
  find_pipe_in h n l = Some None ↔
  Forall (λ q, ∃ v, h !! q = Some v ∧ fd v ≠ n) l.
Proof.
  induction l as [|q l IH]; simpl.
  - split; [by constructor|done].
  - destruct (h !! q) as [v|] eqn:Hq.
    + destruct (Z.eqb_spec (fd v) n) as [Heq|Hne].
      * split; [done|]. intros Hall. apply Forall_cons_1 in Hall as [(v' & Hv' & Hne) _].
        congruence.
      * rewrite IH. split.
        -- intros Hall. constructor; eauto.
        -- intros Hall. by apply Forall_cons_1 in Hall as [_ ?].
    + split; [done|]. intros Hall. apply Forall_cons_1 in Hall as [(v' & Hv' & _) _].
      congruence.
Qed.

Lemma find_pipe_in_Some (h : gmap positive pipe_t) (n : Z) (l : list loc) (pipe : loc) :
  find_pipe_in h n l = Some (Some pipe) ↔
  ∃ l1 l2 p, l = l1 ++ pipe :: l2 ∧
             Forall (λ q, ∃ v, h !! q = Some v ∧ fd v ≠ n) l1 ∧
             h !! pipe = Some p ∧ fd p = n.
Proof.
  split.
  - induction l as [|q l IH]; simpl; [done|].
    destruct (h !! q) as [v|] eqn:Hq; [|done].
    destruct (Z.eqb_spec (fd v) n) as [Heq|Hne].
    + intros [= <-]. exists [], l, v. split; [done|]. split; [constructor|done].
    + intros Hf. destruct (IH Hf) as (l1 & l2 & p & -> & Hall & Hp & Hfd).
      exists (q :: l1), l2, p. split; [done|]. split; [|done].
      constructor; eauto.
  - intros (l1 & l2 & p & -> & Hall & Hp & Hfd).
    rewrite find_pipe_in_skip by done. simpl. rewrite Hp.
    by rewrite (proj2 (Z.eqb_eq _ _) Hfd).
Qed.

(** X1: [find_pipe] yields the first entry of the task's list, front to
    back, that carries the descriptor: every entry before it is a live
    endpoint with another descriptor. *)
Theorem find_pipe_first_match (k : kernel) (t : task_t) (n : Z) (pipe : loc) :
  tasks k !! current_pid k = Some t →
  find_pipe n k = Ret (Some pipe) k ↔
  ∃ l1 l2 p, items (pipes t) = l1 ++ pipe :: l2 ∧
             Forall (other_entry k n) l1 ∧
             pipe_heap k !! pipe = Some p ∧ fd p = n.
Proof.
  intros Ht. unfold other_entry.
  rewrite <- (find_pipe_in_Some (pipe_heap k) n (items (pipes t)) pipe). split.
  - intros Hf. apply find_pipe_inv in Hf as (_ & t' & Ht' & Hin). congruence.
  - intros Hin. by apply (find_pipe_intro n k t).
Qed.

Lemma find_pipe_first_match_witness :
  find_pipe 1 k_piped = Ret (Some 2%positive) k_piped ↔
  ∃ l1 l2 p, items (pipes t_piped) = l1 ++ 2%positive :: l2 ∧
             Forall (other_entry k_piped 1) l1 ∧
             pipe_heap k_piped !! 2%positive = Some p ∧ fd p = 1.
Proof.
  apply (find_pipe_first_match k_piped t_piped 1 2%positive).
  vm_compute; reflexivity.
Defined.

(** X2: a descriptor that no entry of the task's list carries is turned
    down by all three calls, which report the invalid descriptor and
    leave the kernel state and the caller's block as they were. *)
Theorem invalid_descriptor_rejected (EOF : char) (k : kernel) (t : task_t) (n : Z)
    (buf : list char) (cnt : Z) :
  tasks k !! current_pid k = Some t →
  Forall (other_entry k n) (items (pipes t)) →
  pipe_read EOF n buf cnt k = Ret (Error InvalidDescriptor, buf) k ∧
  pipe_write n buf cnt k = Ret (Error InvalidDescriptor) k ∧
  pipe_close EOF n k = Ret (CloseError InvalidDescriptor) k.
Proof.
  intros Ht Hall.
  assert (find_pipe n k = Ret None k) as Hf.
  { apply (find_pipe_intro n k t None Ht). apply find_pipe_in_None; exact Hall. }
  unfold pipe_read, pipe_write, pipe_close.
  by rewrite !(bind_Ret _ _ _ _ _ Hf).
Qed.

Lemma invalid_descriptor_rejected_witness :
  pipe_read EOF_byte 7 [0; 0] 1 k_piped = Ret (Error InvalidDescriptor, [0; 0]) k_piped ∧
  pipe_write 7 [0; 0] 1 k_piped = Ret (Error InvalidDescriptor) k_piped ∧
  pipe_close EOF_byte 7 k_piped = Ret (CloseError InvalidDescriptor) k_piped.
Proof.
  apply (invalid_descriptor_rejected EOF_byte k_piped t_piped 7 [0; 0] 1).
  - vm_compute; reflexivity.
  - repeat constructor; eexists; (split; [vm_compute; reflexivity|simpl; lia]).
Defined.

(** ** Creation *)

Lemma int_wrap_small (x : Z) : - 2 ^ 31 ≤ x < 2 ^ 31 → int_wrap x = x.
Proof. intros Hx. unfold int_wrap. rewrite Z.mod_small; lia. Qed.

(** X3: the task's list has room for two more entries and holds live
    endpoints only, none of which carries either of the two descriptors
    about to be handed out ([registry_fresh], which holds wherever the
    descriptors are in order, [descriptors_in_order]).  Then [pipe]
    returns two different descriptors; the first resolves to a READ
    endpoint and the second to a WRITE endpoint, both newly allocated,
    owned by the calling task alone, and both pointing to one newly
    allocated ring buffer that is empty and has 64 cells. *)
Theorem pipe_creates_pair (k : kernel) (t : task_t) :
  tasks k !! current_pid k = Some t →
  registry_fresh k t →
  size (pipes t) + 1 < max_size (pipes t) →
  ∃ rfd wfd k' r w a c,
    pipe k = Ret (rfd, wfd) k' ∧ rfd ≠ wfd ∧
    resolves k' rfd r (mk_pipe READ rfd (mk_array_m 32 [current_pid k]) (Some a)) ∧
    resolves k' wfd w (mk_pipe WRITE wfd (mk_array_m 32 [current_pid k]) (Some a)) ∧
    r ≠ w ∧ pipe_heap k !! r = None ∧ pipe_heap k !! w = None ∧
    cb_heap k !! a = None ∧ cb_heap k' !! a = Some c ∧
    cb_wf c ∧ capacity c = 64 ∧ cb_contents c = [].
Proof.
  intros Ht Hreg Hroom.
  destruct (after_pipe_resolves k t Hreg) as [Hr Hw].
  exists (fd_max t), (int_wrap (fd_max t + 1)), (after_pipe k t),
    (new_read_end k), (new_write_end k), (new_buffer k), (cb_init 64).
  split.
  { rewrite (pipe_eq k t Ht).
    by rewrite Z.geb_leb, (proj2 (Z.leb_gt _ _)) by lia. }
  split; [apply not_eq_sym, int_wrap_succ_ne|].
  split; [done|]. split; [done|].
  split; [apply new_ends_distinct|].
  split; [apply new_read_end_fresh|]. split; [apply new_write_end_fresh|].
  split; [apply new_buffer_fresh|]. split; [apply after_pipe_buffer|].
  split; [by apply cb_init_wf|done].
Qed.

Lemma pipe_creates_pair_witness :
  ∃ rfd wfd k' r w a c,
    pipe k_boot = Ret (rfd, wfd) k' ∧ rfd ≠ wfd ∧
    resolves k' rfd r (mk_pipe READ rfd (mk_array_m 32 [current_pid k_boot]) (Some a)) ∧
    resolves k' wfd w (mk_pipe WRITE wfd (mk_array_m 32 [current_pid k_boot]) (Some a)) ∧
    r ≠ w ∧ pipe_heap k_boot !! r = None ∧ pipe_heap k_boot !! w = None ∧
    cb_heap k_boot !! a = None ∧ cb_heap k' !! a = Some c ∧
    cb_wf c ∧ capacity c = 64 ∧ cb_contents c = [].
Proof.
  apply (pipe_creates_pair k_boot t_boot).
  - vm_compute; reflexivity.
  - apply Forall_nil_2.
  - reflexivity.
Defined.

(** X4: a successful [pipe] disturbs nothing that was there: every
    descriptor that resolved before resolves to the same endpoint, every
    endpoint and ring buffer keeps its contents, and no other task's
    entry changes. *)
Theorem pipe_keeps_old_descriptors (k : kernel) (t : task_t) :
  tasks k !! current_pid k = Some t →
  size (pipes t) + 1 < max_size (pipes t) →
  ∃ fds k', pipe k = Ret fds k' ∧
    (∀ n q, find_pipe n k = Ret (Some q) k → find_pipe n k' = Ret (Some q) k') ∧
    (∀ q v, pipe_heap k !! q = Some v → pipe_heap k' !! q = Some v) ∧
    (∀ a c, cb_heap k !! a = Some c → cb_heap k' !! a = Some c) ∧
    (∀ pid, pid ≠ current_pid k → tasks k' !! pid = tasks k !! pid).
Proof.
  intros Ht Hroom. exists (fd_max t, int_wrap (fd_max t + 1)), (after_pipe k t).
  split.
  { rewrite (pipe_eq k t Ht).
    by rewrite Z.geb_leb, (proj2 (Z.leb_gt _ _)) by lia. }
  split; [|split; [|split]].
  - intros n q Hf. apply find_pipe_inv in Hf as (_ & t' & Ht' & Hin).
    assert (t' = t) as -> by congruence.
    apply find_pipe_in_Some in Hin as (l1 & l2 & p & Hl & Hall & Hp & Hfd).
    eapply find_pipe_intro; [apply after_pipe_task|]. cbn [pipes items].
    apply find_pipe_in_Some. exists l1, (l2 ++ [new_read_end k; new_write_end k]), p.
    split; [by rewrite Hl, <- app_assoc|]. split; [|split; [|done]].
    + eapply Forall_impl; [apply Hall|]. intros q' (v & Hv & Hne).
      exists v. split; [by apply after_pipe_old_entry|done].
    + by apply after_pipe_old_entry.
  - intros q v Hq. by apply after_pipe_old_entry.
  - intros a c Ha. cbn [after_pipe after_pipe_create set_tasks cb_heap].
    rewrite lookup_insert_ne; [done|]. intros <-. by rewrite new_buffer_fresh in Ha.
  - intros pid Hpid. cbn [after_pipe after_pipe_create set_tasks tasks].
    by rewrite !lookup_insert_ne.
Qed.

Lemma pipe_keeps_old_descriptors_witness :
  ∃ fds k', pipe (k_shared cb_hi) = Ret fds k' ∧
    (∀ n q, find_pipe n (k_shared cb_hi) = Ret (Some q) (k_shared cb_hi) →
            find_pipe n k' = Ret (Some q) k') ∧
    (∀ q v, pipe_heap (k_shared cb_hi) !! q = Some v → pipe_heap k' !! q = Some v) ∧
    (∀ a c, cb_heap (k_shared cb_hi) !! a = Some c → cb_heap k' !! a = Some c) ∧
    (∀ pid, pid ≠ current_pid (k_shared cb_hi) →
            tasks k' !! pid = tasks (k_shared cb_hi) !! pid).
Proof.
  apply (pipe_keeps_old_descriptors (k_shared cb_hi)
           (mk_task 2 (mk_array_m 3 [2%positive]))).
  - vm_compute; reflexivity.
  - reflexivity.
Defined.

(** X5: descriptors are not handed out twice: two [pipe] calls in a row
    return four consecutive descriptors, as long as the counter stays
    below its 32-bit limit. *)
Theorem pipe_descriptors_consecutive (k : kernel) (t : task_t) :
  tasks k !! current_pid k = Some t →
  size (pipes t) + 3 < max_size (pipes t) →
  - 2 ^ 31 ≤ fd_max t → fd_max t + 3 < 2 ^ 31 →
  ∃ k1 k2, pipe k = Ret (fd_max t, fd_max t + 1) k1 ∧
           pipe k1 = Ret (fd_max t + 2, fd_max t + 3) k2.
Proof.
  intros Ht Hroom Hlo Hhi. exists (after_pipe k t), (after_pipe (after_pipe k t)
    (mk_task (int_wrap (int_wrap (fd_max t + 1) + 1))
       (mk_array_m (max_size (pipes t))
          (items (pipes t) ++ [new_read_end k; new_write_end k])))).
  split.
  - rewrite (pipe_eq k t Ht).
    rewrite Z.geb_leb, (proj2 (Z.leb_gt _ _)) by lia.
    by rewrite int_wrap_small by lia.
  - rewrite (pipe_eq _ _ (after_pipe_task k t)). cbn [pipes fd_max max_size].
    rewrite Z.geb_leb, (proj2 (Z.leb_gt _ _)).
    + rewrite !(int_wrap_small (fd_max t + 1)) by lia.
      rewrite !(int_wrap_small (fd_max t + 1 + 1)) by lia.
      rewrite (int_wrap_small (fd_max t + 1 + 1 + 1)) by lia.
      f_equal. f_equal; lia.
    + unfold size in *. cbn [items]. rewrite length_app. simpl. lia.
Qed.

Lemma pipe_descriptors_consecutive_witness :
  ∃ k1 k2, pipe k_roomy = Ret (0, 0 + 1) k1 ∧
           pipe k1 = Ret (0 + 2, 0 + 3) k2.
Proof.
  apply (pipe_descriptors_consecutive k_roomy t_roomy).
  - vm_compute; reflexivity.
  - reflexivity.
  - simpl; lia.
  - simpl; lia.
Defined.

(** ** Transfers *)

(** X6: [pipe_write] is a short write.  With [cnt] bytes on offer it
    stores the first [min cnt (capacity - count)] of them behind the
    bytes already held, returns that number, and touches nothing else. *)
Theorem pipe_write_short (k : kernel) (n : Z) (pipe : loc) (p : pipe_t) (a : loc)
    (c : circular_buffer) (buf : list char) (cnt : Z) :
  resolves k n pipe p → dir p = WRITE → backed k p a c → cb_wf c →
  0 ≤ cnt ≤ Z.of_nat (length buf) →
  let m := Z.min cnt (capacity c - count c) in
  ∃ c', pipe_write n buf cnt k = Ret (OK m) (with_cb a c' k) ∧
        cb_wf c' ∧ capacity c' = capacity c ∧ count c' = count c + m ∧
        cb_contents c' = cb_contents c ++ take (Z.to_nat m) buf.
Proof.
  intros Hr Hd Hb Hwf Hcnt m.
  pose proof Hwf as (_ & _ & Hc & _).
  assert (Z.of_nat (length (take (Z.to_nat m) buf)) = m) as Hlen
    by (rewrite length_take; lia).
  destruct (write_loop_run (take (Z.to_nat m) buf) (Z.to_nat cnt) k pipe p a c buf 0
              (drop (Z.to_nat m) buf))
    as (c' & Hrun & Hwf' & Hcap' & Hcnt' & Hcont');
    [apply Hr|done|done|done|by rewrite take_drop|lia|lia|].
  rewrite Hlen, Z.add_0_l in *.
  exists c'. split; [|done].
  rewrite (pipe_write_resolved k n pipe p) by done.
  by rewrite (bind_Ret _ _ _ _ _ Hrun).
Qed.

Lemma pipe_write_short_witness :
  let m := Z.min 3 (capacity cb_hi - count cb_hi) in
  ∃ c', pipe_write 1 [7; 8; 9] 3 (k_shared cb_hi) =
          Ret (OK m) (with_cb 1%positive c' (k_shared cb_hi)) ∧
        cb_wf c' ∧ capacity c' = capacity cb_hi ∧ count c' = count cb_hi + m ∧
        cb_contents c' = cb_contents cb_hi ++ take (Z.to_nat m) [7; 8; 9].
Proof.
  apply (pipe_write_short (k_shared cb_hi) 1 2%positive w_shared 1%positive cb_hi
           [7; 8; 9] 3).
  - split; vm_compute; reflexivity.
  - reflexivity.
  - split; vm_compute; reflexivity.
  - unfold cb_wf, cb_hi; simpl. repeat split; lia.
  - simpl; lia.
Defined.

(** X7: [pipe_read] hands out the oldest bytes first.  When none of the
    first [m = min cnt count] bytes held is the EOF byte, it stores
    these [m] bytes at the start of the caller's block, puts the
    terminator behind them, returns [m], and leaves the younger bytes in
    the buffer for the next read. *)
Theorem pipe_read_oldest_first (EOF : char) (k : kernel) (n : Z) (pipe : loc)
    (p : pipe_t) (a : loc) (c : circular_buffer) (buf : list char) (cnt : Z) :
  resolves k n pipe p → dir p = READ → backed k p a c → cb_wf c →
  0 ≤ cnt →
  let m := Z.to_nat (Z.min cnt (count c)) in
  EOF ∉ take m (cb_contents c) →
  (m < length buf)%nat →
  ∃ c', pipe_read EOF n buf cnt k =
          Ret (OK (Z.of_nat m), <[m := 0]> (blit buf 0 (take m (cb_contents c))))
              (with_cb a c' k) ∧
        cb_wf c' ∧ cb_contents c' = drop m (cb_contents c).
Proof.
  intros Hr Hd Hb Hwf Hcnt m Heof Hbuf.
  pose proof Hwf as (_ & _ & Hc & _).
  pose proof (cb_contents_length c (proj1 Hc)) as Hlen.
  assert (length (take m (cb_contents c)) = m) as Hm by (rewrite length_take; lia).
  destruct (pipe_read_data EOF k n pipe p a c buf (take m (cb_contents c))
              (drop m (cb_contents c)) cnt Hr Hd Hb Hwf)
    as (c' & Hread & Hwf' & Hcont'); [by rewrite take_drop|done| |lia|].
  { rewrite Hm. destruct (Z.le_ge_cases cnt (count c)); [left; lia|].
    right. split; [lia|]. apply drop_ge. lia. }
  rewrite Hm in Hread. eauto.
Qed.

Lemma pipe_read_oldest_first_witness :
  let m := Z.to_nat (Z.min 1 (count cb_hi)) in
  ∃ c', pipe_read EOF_byte 0 [0; 0; 0] 1 (with_cb 1%positive cb_hi k_piped) =
          Ret (OK (Z.of_nat m), <[m := 0]> (blit [0; 0; 0] 0 (take m (cb_contents cb_hi))))
              (with_cb 1%positive c' (with_cb 1%positive cb_hi k_piped)) ∧
        cb_wf c' ∧ cb_contents c' = drop m (cb_contents cb_hi).
Proof.
  apply (pipe_read_oldest_first EOF_byte (with_cb 1%positive cb_hi k_piped) 0 1%positive
           r_piped 1%positive cb_hi [0; 0; 0] 1).
  - split; vm_compute; reflexivity.
  - reflexivity.
  - split; vm_compute; reflexivity.
  - unfold cb_wf, cb_hi; simpl. repeat split; lia.
  - lia.
  - refine (bool_decide_unpack _ _). vm_compute. exact I.
  - vm_compute; lia.
Defined.

(** X8: [pipe_read] does not wait for data.  On an empty buffer, or when
    asked for no bytes, it returns 0 with the kernel state unchanged;
    all it does is put the terminator into the first cell of the
    caller's block. *)
Theorem pipe_read_nothing (EOF : char) (k : kernel) (n : Z) (pipe : loc)
    (p : pipe_t) (a : loc) (c : circular_buffer) (buf : list char) (cnt : Z) :
  resolves k n pipe p → dir p = READ → backed k p a c →
  count c = 0 ∨ cnt ≤ 0 →
  (0 < length buf)%nat →
  pipe_read EOF n buf cnt k = Ret (OK 0, <[0%nat := 0]> buf) k.
Proof.
  intros Hr Hd Hb Hnone Hbuf.
  rewrite (pipe_read_resolved EOF k n pipe p) by done.
  assert (read_loop EOF (Z.to_nat cnt) pipe buf 0 k = Ret (0, buf) k) as Hread.
  { destruct Hnone as [Hempty|Hcnt].
    - eapply read_loop_empty; [apply Hr|done..].
    - by replace (Z.to_nat cnt) with 0%nat by lia. }
  rewrite (bind_Ret _ _ _ _ _ Hread). cbn [fst snd].
  rewrite buf_set_Some by lia. done.
Qed.

Lemma pipe_read_nothing_witness :
  pipe_read EOF_byte 0 [9; 9] 2 k_piped = Ret (OK 0, <[0%nat := 0]> [9; 9]) k_piped.
Proof.
  apply (pipe_read_nothing EOF_byte k_piped 0 1%positive r_piped 1%positive (cb_init 64)).
  - split; vm_compute; reflexivity.
  - reflexivity.
  - split; vm_compute; reflexivity.
  - left; reflexivity.
  - simpl; lia.
Defined.

(** X9: the terminator needs a cell of its own.  When the caller's block
    has exactly [cnt] cells and the buffer holds at least [cnt] bytes,
    none of the first [cnt] being EOF, [pipe_read] fills the block and
    then stores the terminator one cell past its end. *)
Theorem pipe_read_overruns_exact_block (EOF : char) (k : kernel) (n : Z) (pipe : loc)
    (p : pipe_t) (a : loc) (c : circular_buffer) (buf : list char) :
  resolves k n pipe p → dir p = READ → backed k p a c → cb_wf c →
  Z.of_nat (length buf) ≤ count c →
  EOF ∉ take (length buf) (cb_contents c) →
  pipe_read EOF n buf (Z.of_nat (length buf)) k = Fault.
Proof.
  intros Hr Hd Hb Hwf Hcnt Heof.
  pose proof Hwf as (_ & _ & Hc & _).
  pose proof (cb_contents_length c (proj1 Hc)) as Hlen.
  set (data := take (length buf) (cb_contents c)) in *.
  assert (length data = length buf) as Hdata by (unfold data; rewrite length_take; lia).
  destruct (read_loop_run EOF data (Z.to_nat (Z.of_nat (length buf))) k pipe p a c buf 0
              (drop (length buf) (cb_contents c)))
    as (c' & Hread & _);
    [apply Hr|done|done|by unfold data; rewrite take_drop|done|left; lia|done|lia|].
  rewrite (pipe_read_resolved EOF k n pipe p) by done.
  rewrite (bind_Ret _ _ _ _ _ Hread). cbn [fst snd].
  erewrite bind_Fault; [done|]. unfold buf_set.
  rewrite blit_length by (simpl; lia).
  rewrite (proj2 (Z.ltb_ge _ _)) by lia. by rewrite andb_false_r.
Qed.

Lemma pipe_read_overruns_exact_block_witness :
  pipe_read EOF_byte 0 [0; 0] (Z.of_nat (length [0; 0])) (with_cb 1%positive cb_hi k_piped)
    = Fault.
Proof.
  apply (pipe_read_overruns_exact_block EOF_byte (with_cb 1%positive cb_hi k_piped) 0
           1%positive r_piped 1%positive cb_hi [0; 0]).
  - split; vm_compute; reflexivity.
  - reflexivity.
  - split; vm_compute; reflexivity.
  - unfold cb_wf, cb_hi; simpl. repeat split; lia.
  - simpl; lia.
  - refine (bool_decide_unpack _ _). vm_compute. exact I.
Defined.

(** X10: [pipe_read] stops at the EOF byte.  When the buffer holds
    [data], free of EOF and not empty, then an EOF byte, and [cnt]
    reaches past [data], the EOF byte is taken out of the buffer and what
    follows it stays there; the count returned is one less than the
    length of [data], and the terminator replaces the last byte of
    [data] in the caller's block. *)
Theorem pipe_read_stops_at_eof (EOF : char) (k : kernel) (n : Z) (pipe : loc)
    (p : pipe_t) (a : loc) (c : circular_buffer) (buf data rest : list char) (cnt : Z) :
  resolves k n pipe p → dir p = READ → backed k p a c → cb_wf c →
  cb_contents c = data ++ EOF :: rest → EOF ∉ data →
  (1 ≤ length data)%nat →
  Z.of_nat (length data) < cnt → (length data < length buf)%nat →
  ∃ c', pipe_read EOF n buf cnt k =
          Ret (OK (Z.of_nat (length data) - 1),
               <[(length data - 1)%nat := 0]> (blit buf 0 (data ++ [EOF])))
              (with_cb a c' k) ∧
        cb_wf c' ∧ cb_contents c' = rest.
Proof.
  intros Hr Hd Hb Hwf Hcont Heof Hne Hcnt Hbuf.
  destruct (read_loop_eof EOF data (Z.to_nat cnt) k pipe p a c buf 0 rest)
    as (c' & Hread & Hwf' & _ & Hcont'); [apply Hr|done|done|done|done|lia|done|lia|].
  exists c'. split; [|done].
  rewrite (pipe_read_resolved EOF k n pipe p) by done.
  rewrite (bind_Ret _ _ _ _ _ Hread). cbn [fst snd]. rewrite Z.add_0_l.
  rewrite buf_set_Some.
  - by replace (Z.to_nat (Z.of_nat (length data) - 1)) with (length data - 1)%nat by lia.
  - rewrite blit_length; rewrite ?length_app; simpl; lia.
Qed.

Lemma pipe_read_stops_at_eof_witness :
  ∃ c', pipe_read EOF_byte 0 (replicate 8 0) 8 (with_cb 1%positive cb_hi_eof k_piped) =
          Ret (OK (Z.of_nat (length [104; 105]) - 1),
               <[(length [104; 105] - 1)%nat := 0]>
                 (blit (replicate 8 0) 0 ([104; 105] ++ [EOF_byte])))
              (with_cb 1%positive c' (with_cb 1%positive cb_hi_eof k_piped)) ∧
        cb_wf c' ∧ cb_contents c' = [].
Proof.
  apply (pipe_read_stops_at_eof EOF_byte (with_cb 1%positive cb_hi_eof k_piped) 0
           1%positive r_piped 1%positive cb_hi_eof (replicate 8 0) [104; 105] [] 8).
  - split; vm_compute; reflexivity.
  - reflexivity.
  - split; vm_compute; reflexivity.
  - unfold cb_wf, cb_hi_eof; simpl. repeat split; lia.
  - vm_compute; reflexivity.
  - refine (bool_decide_unpack _ _). vm_compute. exact I.
  - simpl; lia.
  - simpl; lia.
  - simpl; lia.
Defined.

(** X11: when the oldest byte held is the EOF byte, a read of at least
    one byte steps its index back to -1 and stores the terminator in
    front of the caller's block. *)
Theorem pipe_read_eof_first_underruns (EOF : char) (k : kernel) (n : Z) (pipe : loc)
    (p : pipe_t) (a : loc) (c : circular_buffer) (buf rest : list char) (cnt : Z) :
  resolves k n pipe p → dir p = READ → backed k p a c → cb_wf c →
  cb_contents c = EOF :: rest →
  1 ≤ cnt → (0 < length buf)%nat →
  pipe_read EOF n buf cnt k = Fault.
Proof.
  intros Hr Hd Hb Hwf Hcont Hcnt Hbuf.
  destruct (read_loop_eof EOF [] (Z.to_nat cnt) k pipe p a c buf 0 rest)
    as (c' & Hread & _);
    [apply Hr|done|done|done|apply not_elem_of_nil|simpl; lia|done|simpl; lia|].
  rewrite (pipe_read_resolved EOF k n pipe p) by done.
  rewrite (bind_Ret _ _ _ _ _ Hread). cbn [fst snd].
  by erewrite bind_Fault.
Qed.

Lemma pipe_read_eof_first_underruns_witness :
  pipe_read EOF_byte 0 [0; 0] 1
    (with_cb 1%positive (mk_cb (EOF_byte :: replicate 63 0) 64 1 1 0) k_piped) = Fault.
Proof.
  apply (pipe_read_eof_first_underruns EOF_byte
           (with_cb 1%positive (mk_cb (EOF_byte :: replicate 63 0) 64 1 1 0) k_piped)
           0 1%positive r_piped 1%positive (mk_cb (EOF_byte :: replicate 63 0) 64 1 1 0)
           [0; 0] [] 1).
  - split; vm_compute; reflexivity.
  - reflexivity.
  - split; vm_compute; reflexivity.
  - unfold cb_wf; simpl. repeat split; lia.
  - vm_compute; reflexivity.
  - lia.
  - simpl; lia.
Defined.

(** X12: bytes travel in order.  When a WRITE and a READ descriptor lead
    to the same ring buffer, writing [data] (which fits) and then
    reading everything returns first the bytes that were held before and
    then [data], provided no EOF byte is among them. *)
Theorem write_then_read_fifo (EOF : char) (k : kernel) (wfd rfd : Z) (w r : loc)
    (pw pr : pipe_t) (a : loc) (c : circular_buffer) (data buf : list char) :
  resolves k wfd w pw → dir pw = WRITE →
  resolves k rfd r pr → dir pr = READ →
  backed k pw a c → cb pr = Some a → cb_wf c →
  count c + Z.of_nat (length data) ≤ capacity c →
  EOF ∉ cb_contents c ++ data →
  (length (cb_contents c ++ data) < length buf)%nat →
  let N := Z.of_nat (length (cb_contents c ++ data)) in
  ∃ k1 k2 buf',
    pipe_write wfd data (Z.of_nat (length data)) k = Ret (OK (Z.of_nat (length data))) k1 ∧
    pipe_read EOF rfd buf N k1 = Ret (OK N, buf') k2 ∧
    take (length (cb_contents c ++ data)) buf' = cb_contents c ++ data.
Proof.
  intros Hw Hdw Hr Hdr Hb Hcb Hwf Hroom Heof Hbuf N.
  destruct (pipe_write_data k wfd w pw a c data Hw Hdw Hb Hwf Hroom)
    as (c1 & Hwrite & Hwf1 & Hcont1).
  destruct (pipe_read_data EOF (with_cb a c1 k) rfd r pr a c1 buf
              (cb_contents c ++ data) [] N (resolves_with_cb _ _ _ _ _ _ Hr))
    as (c2 & Hread & _);
    [done|split; [done|apply with_cb_lookup]|done|by rewrite app_nil_r|done|by left|done|].
  eexists _, _, _. split; [exact Hwrite|]. split; [exact Hread|].
  rewrite take_insert_ge by lia.
  apply (blit_take buf 0 (cb_contents c ++ data)); [lia|simpl; lia].
Qed.

Lemma write_then_read_fifo_witness :
  let N := Z.of_nat (length (cb_contents cb_hi ++ [33])) in
  ∃ k1 k2 buf',
    pipe_write 1 [33] (Z.of_nat (length [33])) (with_cb 1%positive cb_hi k_piped) =
      Ret (OK (Z.of_nat (length [33]))) k1 ∧
    pipe_read EOF_byte 0 (replicate 4 0) N k1 = Ret (OK N, buf') k2 ∧
    take (length (cb_contents cb_hi ++ [33])) buf' = cb_contents cb_hi ++ [33].
Proof.
  apply (write_then_read_fifo EOF_byte (with_cb 1%positive cb_hi k_piped) 1 0
           2%positive 1%positive w_piped r_piped 1%positive cb_hi [33] (replicate 4 0)).
  - split; vm_compute; reflexivity.
  - reflexivity.
  - split; vm_compute; reflexivity.
  - reflexivity.
  - split; vm_compute; reflexivity.
  - reflexivity.
  - unfold cb_wf, cb_hi; simpl. repeat split; lia.
  - simpl; lia.
  - refine (bool_decide_unpack _ _). vm_compute. exact I.
  - vm_compute; lia.
Defined.

(** ** What the transfers leave alone *)

Lemma cb_push_back_wf (c c' : circular_buffer) (b : char) :
  cb_wf c → cb_push_back c b = Some c' → cb_wf c'.
Proof.
  intros Hwf Hpush.
  destruct (Z.eq_dec (count c) (capacity c)) as [Hfull|Hroom].
  - unfold cb_push_back in Hpush. by rewrite Hfull, Z.eqb_refl in Hpush.
  - destruct (cb_push_back_spec c b Hwf Hroom) as (c1 & Hc1 & Hwf1 & _). congruence.
Qed.

Lemma cb_pop_front_wf (c c' : circular_buffer) (b : char) :
  cb_wf c → cb_pop_front c = Some (b, c') → cb_wf c'.
Proof.
  intros Hwf Hpop.
  destruct (Z.eq_dec (count c) 0) as [Hempty|Hne].
  - unfold cb_pop_front in Hpop. by rewrite Hempty in Hpop.
  - destruct (cb_pop_front_spec c Hwf Hne) as (b1 & c1 & Hc1 & Hwf1 & _). congruence.
Qed.

Lemma same_objects_refl (k : kernel) : same_objects k k.
Proof. done. Qed.

Lemma same_objects_trans (k1 k2 k3 : kernel) :
  same_objects k1 k2 → same_objects k2 k3 → same_objects k1 k3.
Proof. intros (? & ? & ? & ?) (? & ? & ? & ?). repeat split; congruence. Qed.

(** Storing into an allocated ring buffer. *)
Lemma store_cb_inv (o : option loc) (c : circular_buffer) (k k' : kernel) :
  store_cb o c k = Ret () k' →
  ∃ a c0, o = Some a ∧ cb_heap k !! a = Some c0 ∧ k' = with_cb a c k.
Proof.
  munfold. destruct o as [a|]; [|done].
  destruct (cb_heap k !! a) as [c0|] eqn:Ha; [|done].
  intros [= <-]. eauto.
Qed.

Lemma load_cb_inv (o : option loc) (c : circular_buffer) (k k' : kernel) :
  load_cb o k = Ret c k' → k' = k ∧ ∃ a, o = Some a ∧ cb_heap k !! a = Some c.
Proof.
  munfold. destruct o as [a|]; [|done].
  destruct (cb_heap k !! a) as [c0|] eqn:Ha; [|done].
  intros [= <- <-]. eauto.
Qed.

Lemma load_pipe_inv (pipe : loc) (p : pipe_t) (k k' : kernel) :
  load_pipe pipe k = Ret p k' → k' = k ∧ pipe_heap k !! pipe = Some p.
Proof.
  munfold. destruct (pipe_heap k !! pipe) as [p0|] eqn:Hp; [|done].
  by intros [= <- <-].
Qed.

Lemma must_inv {A} (o : option A) (x : A) (k k' : kernel) :
  must o k = Ret x k' → k' = k ∧ o = Some x.
Proof. destruct o; [by intros [= <- <-]|done]. Qed.

Lemma with_cb_same_objects (a : loc) (c0 c : circular_buffer) (k : kernel) :
  cb_heap k !! a = Some c0 → same_objects k (with_cb a c k).
Proof.
  intros Ha. repeat split. cbn [with_cb set_cb_heap cb_heap].
  rewrite dom_insert_L. apply elem_of_dom_2 in Ha. set_solver.
Qed.

Lemma with_cb_buffers_wf (a : loc) (c : circular_buffer) (k : kernel) :
  buffers_wf k → cb_wf c → buffers_wf (with_cb a c k).
Proof.
  intros Hk Hc a' c'. cbn [with_cb set_cb_heap cb_heap].
  destruct (decide (a = a')) as [<-|Hne].
  - rewrite lookup_insert_eq. by intros [= <-].
  - rewrite lookup_insert_ne by done. apply Hk.
Qed.

Lemma other_buffers_kept_refl (o : option loc) (k : kernel) : other_buffers_kept o k k.
Proof. done. Qed.

Lemma other_buffers_kept_trans (o : option loc) (k1 k2 k3 : kernel) :
  other_buffers_kept o k1 k2 → other_buffers_kept o k2 k3 → other_buffers_kept o k1 k3.
Proof. intros H12 H23 a Ha. by rewrite H23, H12. Qed.

Lemma with_cb_other_buffers_kept (a : loc) (c : circular_buffer) (k : kernel) :
  other_buffers_kept (Some a) k (with_cb a c k).
Proof.
  intros a' Ha. cbn [with_cb set_cb_heap cb_heap].
  apply lookup_insert_ne. congruence.
Qed.

Lemma loop_keeps_refl (pipe : loc) (k : kernel) : loop_keeps pipe k k.
Proof. split; [apply same_objects_refl|split; [done|intros; apply other_buffers_kept_refl]]. Qed.

Lemma loop_keeps_trans (pipe : loc) (k1 k2 k3 : kernel) :
  loop_keeps pipe k1 k2 → loop_keeps pipe k2 k3 → loop_keeps pipe k1 k3.
Proof.
  intros (Hs12 & Hw12 & Ho12) (Hs23 & Hw23 & Ho23).
  split; [by eapply same_objects_trans|]. split; [auto|].
  intros p Hp. eapply other_buffers_kept_trans; [by apply Ho12|].
  apply Ho23. destruct Hs12 as (_ & _ & -> & _). done.
Qed.

Lemma loop_keeps_store (pipe : loc) (p : pipe_t) (a : loc) (c0 c : circular_buffer)
    (k : kernel) :
  pipe_heap k !! pipe = Some p → cb p = Some a → cb_heap k !! a = Some c0 →
  (cb_wf c0 → cb_wf c) →
  loop_keeps pipe k (with_cb a c k).
Proof.
  intros Hp Ha Hc0 Hwf. split; [by eapply with_cb_same_objects|]. split.
  - intros Hk. apply with_cb_buffers_wf; [done|]. apply Hwf. by eapply Hk.
  - intros p' Hp'. assert (p' = p) as -> by congruence. rewrite Ha.
    apply with_cb_other_buffers_kept.
Qed.

(** The write loop keeps the set of objects, the buffer invariant and
    every other buffer. *)
Lemma write_loop_keeps n : ∀ pipe buf i k j k',
  write_loop n pipe buf i k = Ret j k' → loop_keeps pipe k k'.
Proof.
  induction n as [|n IH]; intros pipe buf i k j k'; simpl.
  - intros [= _ <-]. apply loop_keeps_refl.
  - intros H. apply bind_inv_Ret in H as (p & k1 & Hp & H).
    apply load_pipe_inv in Hp as [-> Hp].
    apply bind_inv_Ret in H as (c & k1 & Hc & H).
    apply load_cb_inv in Hc as (-> & a & Ha & Hc).
    destruct (count c =? capacity c).
    { injection H as _ <-. apply loop_keeps_refl. }
    apply bind_inv_Ret in H as (b & k1 & Hb & H).
    apply must_inv in Hb as [-> Hb].
    apply bind_inv_Ret in H as ([] & k1 & Hst & H).
    apply IH in H.
    destruct (cb_push_back c b) as [c'|] eqn:Hpush.
    + apply store_cb_inv in Hst as (a' & c0 & Ha' & Hc0 & ->).
      assert (a' = a) as -> by congruence. assert (c0 = c) as -> by congruence.
      eapply loop_keeps_trans; [|done].
      eapply loop_keeps_store; [done..|]. intros Hwf. by eapply cb_push_back_wf.
    + injection Hst as <-. done.
Qed.

(** So does the read loop. *)
Lemma read_loop_keeps (EOF : char) n : ∀ pipe buf i k r k',
  read_loop EOF n pipe buf i k = Ret r k' → loop_keeps pipe k k'.
Proof.
  induction n as [|n IH]; intros pipe buf i k r k'; simpl.
  - intros [= _ <-]. apply loop_keeps_refl.
  - intros H. apply bind_inv_Ret in H as (p & k1 & Hp & H).
    apply load_pipe_inv in Hp as [-> Hp].
    apply bind_inv_Ret in H as (c & k1 & Hc & H).
    apply load_cb_inv in Hc as (-> & a & Ha & Hc).
    destruct (count c =? 0).
    { injection H as _ <-. apply loop_keeps_refl. }
    apply bind_inv_Ret in H as (buf' & k1 & Hpop & H).
    assert (loop_keeps pipe k k1) as Hstep.
    { destruct (cb_pop_front c) as [[b c']|] eqn:Hpopc.
      - apply bind_inv_Ret in Hpop as (buf1 & k2 & Hset & Hpop).
        apply must_inv in Hset as [-> _].
        apply bind_inv_Ret in Hpop as ([] & k2 & Hst & [= _ <-]).
        apply store_cb_inv in Hst as (a' & c0 & Ha' & Hc0 & ->).
        assert (a' = a) as -> by congruence. assert (c0 = c) as -> by congruence.
        eapply loop_keeps_store; [done..|]. intros Hwf. by eapply cb_pop_front_wf.
      - injection Hpop as _ <-. apply loop_keeps_refl. }
    apply bind_inv_Ret in H as (b & k2 & Hb & H).
    apply must_inv in Hb as [-> Hb].
    destruct (b =? EOF).
    { by injection H as _ <-. }
    apply IH in H. by eapply loop_keeps_trans.
Qed.

(** What a call on descriptor [n] keeps: as for the loops, where the
    buffer that may change is the one of the endpoint [n] resolves to. *)
Lemma pipe_write_keeps (n : Z) (buf : list char) (cnt : Z) (k k' : kernel) (s : status) :
  pipe_write n buf cnt k = Ret s k' →
  same_objects k k' ∧ (buffers_wf k → buffers_wf k') ∧
  ∀ pipe p, resolves k n pipe p → other_buffers_kept (cb p) k k'.
Proof.
  unfold pipe_write. intros H.
  apply bind_inv_Ret in H as (o & k1 & Hf & H).
  pose proof Hf as Hf'. apply find_pipe_inv in Hf as (-> & _).
  destruct o as [pipe|];
    [|injection H as _ <-; split; [apply same_objects_refl|split; [done|]];
      intros; apply other_buffers_kept_refl].
  apply bind_inv_Ret in H as (p & k1 & Hp & H).
  apply load_pipe_inv in Hp as [-> Hp].
  destruct (decide (dir p ≠ WRITE));
    [injection H as _ <-; split; [apply same_objects_refl|split; [done|]];
     intros; apply other_buffers_kept_refl|].
  apply bind_inv_Ret in H as (i & k1 & Hloop & [= _ <-]).
  apply write_loop_keeps in Hloop as (Hs & Hw & Ho). split; [done|]. split; [done|].
  intros pipe' p' [Hf2 Hp']. assert (pipe' = pipe) as -> by congruence. auto.
Qed.

Lemma pipe_read_keeps (EOF : char) (n : Z) (buf : list char) (cnt : Z) (k k' : kernel)
    (r : status * list char) :
  pipe_read EOF n buf cnt k = Ret r k' →
  same_objects k k' ∧ (buffers_wf k → buffers_wf k') ∧
  ∀ pipe p, resolves k n pipe p → other_buffers_kept (cb p) k k'.
Proof.
  unfold pipe_read. intros H.
  apply bind_inv_Ret in H as (o & k1 & Hf & H).
  pose proof Hf as Hf'. apply find_pipe_inv in Hf as (-> & _).
  destruct o as [pipe|];
    [|injection H as _ <-; split; [apply same_objects_refl|split; [done|]];
      intros; apply other_buffers_kept_refl].
  apply bind_inv_Ret in H as (p & k1 & Hp & H).
  apply load_pipe_inv in Hp as [-> Hp].
  destruct (decide (dir p ≠ READ));
    [injection H as _ <-; split; [apply same_objects_refl|split; [done|]];
     intros; apply other_buffers_kept_refl|].
  apply bind_inv_Ret in H as (x & k1 & Hloop & H).
  apply read_loop_keeps in Hloop as (Hs & Hw & Ho).
  apply bind_inv_Ret in H as (buf' & k2 & Hset & [= _ <-]).
  apply must_inv in Hset as [-> _]. split; [done|]. split; [done|].
  intros pipe' p' [Hf2 Hp']. assert (pipe' = pipe) as -> by congruence. auto.
Qed.

(** X13: whatever they return, [pipe_read] and [pipe_write] neither
    switch the current task, nor change any task's descriptor counter or
    list of pipes, nor change, create or release an endpoint, nor
    allocate or release a ring buffer; and no ring buffer other than the
    one behind the descriptor changes. *)
Theorem transfers_keep_objects (EOF : char) (n : Z) (buf : list char) (cnt : Z)
    (k : kernel) (pipe : loc) (p : pipe_t) :
  resolves k n pipe p →
  (∀ s k', pipe_write n buf cnt k = Ret s k' →
           same_objects k k' ∧ other_buffers_kept (cb p) k k') ∧
  (∀ r k', pipe_read EOF n buf cnt k = Ret r k' →
           same_objects k k' ∧ other_buffers_kept (cb p) k k').
Proof.
  intros Hr. split.
  - intros s k' H. apply pipe_write_keeps in H as (? & _ & Ho). eauto.
  - intros r k' H. apply pipe_read_keeps in H as (? & _ & Ho). eauto.
Qed.

Lemma transfers_keep_objects_witness :
  ∃ s k', pipe_write 1 [7; 8] 2 k_piped = Ret s k' ∧
          same_objects k_piped k' ∧ other_buffers_kept (cb w_piped) k_piped k'.
Proof.
  assert (resolves k_piped 1 2%positive w_piped) as Hr
    by (split; vm_compute; reflexivity).
  eexists _, _. split; [vm_compute; reflexivity|].
  eapply (proj1 (transfers_keep_objects EOF_byte 1 [7; 8] 2 k_piped 2%positive w_piped Hr)).
  vm_compute; reflexivity.
Defined.

(** ** Closing *)

(** What [pipe_close] does for an owner of the endpoint. *)
Lemma pipe_close_owner_effect (EOF : char) (k : kernel) (n : Z) (pipe : loc) (p : pipe_t)
    (t : task_t) (a : loc) (c : circular_buffer) (i : Z) :
  resolves k n pipe p → backed k p a c →
  tasks k !! current_pid k = Some t →
  array_m_index (pids p) (current_pid k) = Some i →
  ∃ j k',
    array_m_index (pipes t) pipe = Some j ∧
    pipe_close EOF n k = Ret Closed k' ∧
    current_pid k' = current_pid k ∧
    tasks k' = <[current_pid k := without_entry t j]> (tasks k) ∧
    (∀ q, q ≠ pipe → pipe_heap k' !! q = pipe_heap k !! q) ∧
    pipe_heap k' !! pipe =
      (if size (pids (without_owner p i)) =? 0 then None
       else Some (without_owner p i)) ∧
    other_buffers_kept (Some a) k k' ∧
    (cb_heap k' !! a = None ↔ size (pids (without_owner p i)) = 0 ∧ dir p = READ).
Proof.
  intros Hr Hb Ht Hi.
  destruct (resolves_task _ _ _ _ Hr) as (t' & Ht' & Hin).
  assert (t' = t) as -> by congruence.
  destruct (index_from_elem pipe (items (pipes t)) 0 Hin) as [j Hj].
  destruct (pipe_close_eof_total EOF k n pipe p a c Hr Hb) as (c1 & Heof).
  exists j. rewrite (pipe_close_resolved EOF k n pipe p Hr), (bind_Ret _ _ _ _ _ Heof).
  rewrite (pipe_close_release_eq (with_cb a c1 k) pipe p t) by (done || apply Hr).
  cbn [with_cb set_cb_heap current_pid]. rewrite Hi. unfold array_m_index at 2.
  rewrite Hj. cbv zeta. destruct Hb as [Ha Hc].
  destruct (Z.eqb_spec (size (pids (without_owner p i))) 0) as [Hz|Hnz].
  - destruct (decide (dir p = READ)) as [Hd|Hd].
    + rewrite Ha. mstep.
      erewrite bind_Ret by (eapply kfree_pipe_eq; apply lookup_insert_eq).
      eexists. split; [done|]. split; [done|].
      unfold set_pipe_heap, set_cb_heap, set_tasks; msimpl.
      cbn [with_cb set_cb_heap pipe_heap cb_heap tasks current_pid].
      split; [done|]. split; [done|]. split.
      { intros q Hq. by rewrite lookup_delete_ne, lookup_insert_ne. }
      split; [apply lookup_delete_eq|]. split.
      { intros a' Ha'. cbn [cb_heap with_cb set_cb_heap].
        rewrite lookup_delete_ne, lookup_insert_ne; congruence. }
      rewrite lookup_delete_eq. done.
    + mstep.
      erewrite bind_Ret by (eapply kfree_pipe_eq; apply lookup_insert_eq).
      eexists. split; [done|]. split; [done|].
      unfold set_pipe_heap, set_cb_heap, set_tasks; msimpl.
      cbn [with_cb set_cb_heap pipe_heap cb_heap tasks current_pid].
      split; [done|]. split; [done|]. split.
      { intros q Hq. by rewrite lookup_delete_ne, lookup_insert_ne. }
      split; [apply lookup_delete_eq|]. split.
      { intros a' Ha'. cbn [cb_heap with_cb set_cb_heap].
        rewrite lookup_insert_ne; congruence. }
      rewrite lookup_insert_eq. split; [done|]. by intros [_ ?].
  - eexists. split; [done|]. split; [done|].
    unfold set_pipe_heap, set_cb_heap, set_tasks; msimpl.
      cbn [with_cb set_cb_heap pipe_heap cb_heap tasks current_pid].
    split; [done|]. split; [done|]. split.
    { intros q Hq. by rewrite lookup_insert_ne. }
    split; [apply lookup_insert_eq|]. split.
    { intros a' Ha'. cbn [cb_heap with_cb set_cb_heap].
        rewrite lookup_insert_ne; congruence. }
    rewrite lookup_insert_eq. split; [done|]. by intros [? _].
Qed.

(** X14: an owner can always close.  When the descriptor resolves to an
    endpoint with a live ring buffer and the calling task is among its
    owners, [pipe_close] returns; it takes the first matching entry out
    of the task's list, leaves every other task and every other endpoint
    as they were, changes no ring buffer but the endpoint's own, and the
    endpoint is released exactly when no owner remains. *)
Theorem pipe_close_by_owner (EOF : char) (k : kernel) (n : Z) (pipe : loc) (p : pipe_t)
    (t : task_t) (a : loc) (c : circular_buffer) (i : Z) :
  resolves k n pipe p → backed k p a c →
  tasks k !! current_pid k = Some t →
  array_m_index (pids p) (current_pid k) = Some i →
  ∃ j k',
    array_m_index (pipes t) pipe = Some j ∧
    pipe_close EOF n k = Ret Closed k' ∧
    current_pid k' = current_pid k ∧
    tasks k' = <[current_pid k := without_entry t j]> (tasks k) ∧
    (∀ q, q ≠ pipe → pipe_heap k' !! q = pipe_heap k !! q) ∧
    pipe_heap k' !! pipe =
      (if size (pids (without_owner p i)) =? 0 then None
       else Some (without_owner p i)) ∧
    other_buffers_kept (Some a) k k' ∧
    (cb_heap k' !! a = None ↔ size (pids (without_owner p i)) = 0 ∧ dir p = READ).
Proof. apply pipe_close_owner_effect. Qed.

Lemma pipe_close_by_owner_witness :
  ∃ j k',
    array_m_index (pipes (mk_task 2 (mk_array_m 3 [2%positive]))) 2%positive = Some j ∧
    pipe_close EOF_byte 1 (k_shared cb_hi) = Ret Closed k' ∧
    current_pid k' = current_pid (k_shared cb_hi) ∧
    tasks k' = <[current_pid (k_shared cb_hi) :=
                   without_entry (mk_task 2 (mk_array_m 3 [2%positive])) j]>
                 (tasks (k_shared cb_hi)) ∧
    (∀ q, q ≠ 2%positive → pipe_heap k' !! q = pipe_heap (k_shared cb_hi) !! q) ∧
    pipe_heap k' !! 2%positive =
      (if size (pids (without_owner w_shared 1)) =? 0 then None
       else Some (without_owner w_shared 1)) ∧
    other_buffers_kept (Some 1%positive) (k_shared cb_hi) k' ∧
    (cb_heap k' !! 1%positive = None ↔
       size (pids (without_owner w_shared 1)) = 0 ∧ dir w_shared = READ).
Proof.
  apply (pipe_close_by_owner EOF_byte (k_shared cb_hi) 1 2%positive w_shared
           (mk_task 2 (mk_array_m 3 [2%positive])) 1%positive cb_hi 1).
  - split; vm_compute; reflexivity.
  - split; vm_compute; reflexivity.
  - vm_compute; reflexivity.
  - vm_compute; reflexivity.
Defined.

Lemma index_from_None {A} `{EqDecision A} (x : A) (l : list A) (i : Z) :
  x ∉ l → index_from x l i = None.
Proof.
  revert i. induction l as [|y l IH]; intros i Hx; simpl; [done|].
  apply not_elem_of_cons in Hx as [Hne Hx].
  rewrite decide_False by done. by apply IH.
Qed.

Lemma index_from_middle {A} `{EqDecision A} (x : A) (l1 l2 : list A) (i : Z) :
  x ∉ l1 → index_from x (l1 ++ x :: l2) i = Some (i + Z.of_nat (length l1)).
Proof.
  revert i. induction l1 as [|y l1 IH]; intros i Hx; simpl.
  - rewrite decide_True by done. f_equal; lia.
  - apply not_elem_of_cons in Hx as [Hne Hx].
    rewrite decide_False by done. rewrite IH by done. f_equal; lia.
Qed.

(** X15: a task that is not among the owners of the endpoint cannot
    close it: [pipe_close] reports that the pipe is not owned, and the
    endpoint stays in the task's list with its owners as they were.
    No object is created or released, and no ring buffer but the
    endpoint's own can have changed. *)
Theorem pipe_close_not_owned (EOF : char) (k : kernel) (n : Z) (pipe : loc) (p : pipe_t)
    (a : loc) (c : circular_buffer) :
  resolves k n pipe p → backed k p a c →
  current_pid k ∉ items (pids p) →
  ∃ k', pipe_close EOF n k = Ret (CloseError NotOwned) k' ∧
        same_objects k k' ∧ other_buffers_kept (Some a) k k'.
Proof.
  intros Hr Hb Hown.
  destruct (resolves_task _ _ _ _ Hr) as (t & Ht & Hin).
  destruct (pipe_close_eof_total EOF k n pipe p a c Hr Hb) as (c1 & Heof).
  exists (with_cb a c1 k).
  rewrite (pipe_close_resolved EOF k n pipe p Hr), (bind_Ret _ _ _ _ _ Heof).
  rewrite (pipe_close_release_eq (with_cb a c1 k) pipe p t) by (done || apply Hr).
  unfold array_m_index. cbn [with_cb set_cb_heap current_pid].
  rewrite (index_from_None _ _ _ Hown).
  split; [done|]. split; [|apply with_cb_other_buffers_kept].
  eapply with_cb_same_objects, Hb.
Qed.

Lemma pipe_close_not_owned_witness :
  ∃ k', pipe_close EOF_byte 1 k_stranger = Ret (CloseError NotOwned) k' ∧
        same_objects k_stranger k' ∧ other_buffers_kept (Some 1%positive) k_stranger k'.
Proof.
  apply (pipe_close_not_owned EOF_byte k_stranger 1 2%positive w_piped 1%positive
           (cb_init 64)).
  - split; vm_compute; reflexivity.
  - split; vm_compute; reflexivity.
  - refine (bool_decide_unpack _ _). vm_compute. exact I.
Defined.

Lemma Forall2_other_entries (h : gmap positive pipe_t) (n : Z) (l : list loc)
    (ps : list pipe_t) :
  Forall2 (λ q v, h !! q = Some v) l ps → n ∉ fd <$> ps →
  Forall (λ q, ∃ v, h !! q = Some v ∧ fd v ≠ n) l.
Proof.
  induction 1 as [|q v l ps Hq _ IH]; intros Hn; [constructor|].
  rewrite fmap_cons in Hn. apply not_elem_of_cons in Hn as [Hne Hn].
  constructor; [|by apply IH]. exists v. split; [done|congruence].
Qed.

(** X16: closing uses the descriptor up.  When the entries of the
    task's list carry pairwise different descriptors, then after an
    owner has closed descriptor [n], that descriptor no longer resolves
    for the task. *)
Theorem pipe_close_invalidates_descriptor (EOF : char) (k : kernel) (n : Z) (pipe : loc)
    (p : pipe_t) (t : task_t) (a : loc) (c : circular_buffer) (i : Z) :
  resolves k n pipe p → backed k p a c →
  tasks k !! current_pid k = Some t → registry_unique k t →
  array_m_index (pids p) (current_pid k) = Some i →
  ∃ k', pipe_close EOF n k = Ret Closed k' ∧ find_pipe n k' = Ret None k'.
Proof.
  intros Hr Hb Ht (ps & Hall2 & Hnodup) Hi.
  destruct (pipe_close_owner_effect EOF k n pipe p t a c i Hr Hb Ht Hi)
    as (j & k' & Hj & Hclose & Hpid & Htasks & Hothers & _).
  exists k'. split; [done|].
  destruct Hr as [Hf Hp].
  apply find_pipe_inv in Hf as (_ & t' & Ht' & Hfind).
  assert (t' = t) as -> by congruence.
  apply find_pipe_in_Some in Hfind as (l1 & l2 & p' & Hl & Hl1 & Hp' & Hfd).
  assert (p' = p) as -> by congruence.
  assert (pipe ∉ l1) as Hnotin.
  { intros Hin. rewrite Forall_forall in Hl1.
    destruct (Hl1 _ Hin) as (v & Hv & Hne). congruence. }
  unfold array_m_index in Hj. rewrite Hl, index_from_middle in Hj by done.
  injection Hj as <-.
  rewrite Hl in Hall2. apply Forall2_app_inv_l in Hall2 as (ps1 & ps' & _ & Hall2 & ->).
  apply Forall2_cons_inv_l in Hall2 as (v & ps2 & Hv & Hall2 & ->).
  assert (v = p) as -> by congruence.
  rewrite fmap_app, fmap_cons in Hnodup.
  apply NoDup_app in Hnodup as (_ & _ & Hnodup).
  apply NoDup_cons in Hnodup as [Hnotin2 _]. rewrite Hfd in Hnotin2.
  pose proof (Forall2_other_entries _ _ _ _ Hall2 Hnotin2) as Hl2.
  eapply find_pipe_intro.
  { rewrite Hpid, Htasks. apply lookup_insert_eq. }
  cbn [without_entry pipes array_m_remove items]. rewrite Hl.
  replace (Z.to_nat (0 + Z.of_nat (length l1))) with (length l1) by lia.
  rewrite delete_middle. apply find_pipe_in_None.
  apply Forall_app. split; (eapply Forall_impl; [eassumption|]);
    intros q (v & Hv' & Hne); exists v; (split; [|done]);
    (rewrite Hothers; [done|congruence]).
Qed.

Lemma pipe_close_invalidates_descriptor_witness :
  ∃ k', pipe_close EOF_byte 1 k_piped = Ret Closed k' ∧ find_pipe 1 k' = Ret None k'.
Proof.
  apply (pipe_close_invalidates_descriptor EOF_byte k_piped 1 2%positive w_piped t_piped
           1%positive (cb_init 64) 0).
  - split; vm_compute; reflexivity.
  - split; vm_compute; reflexivity.
  - vm_compute; reflexivity.
  - exists [r_piped; w_piped]. split.
    + repeat constructor; vm_compute; reflexivity.
    + refine (bool_decide_unpack _ _). vm_compute. exact I.
  - vm_compute; reflexivity.
Defined.

(** X17: when another owner remains and no EOF byte is due (the endpoint
    is a READ endpoint, or the task's list holds more than this one
    entry), [pipe_close] only drops the caller from the endpoint's
    owners and the endpoint from the caller's list: the endpoint stays
    allocated and every ring buffer is what it was. *)
Theorem pipe_close_shared_keeps_buffers (EOF : char) (k : kernel) (n : Z) (pipe : loc)
    (p : pipe_t) (t : task_t) (i : Z) :
  resolves k n pipe p →
  tasks k !! current_pid k = Some t →
  array_m_index (pids p) (current_pid k) = Some i →
  size (pids (without_owner p i)) ≠ 0 →
  dir p = READ ∨ size (pipes t) ≠ 1 →
  ∃ k', pipe_close EOF n k = Ret Closed k' ∧
        pipe_heap k' !! pipe = Some (without_owner p i) ∧
        cb_heap k' = cb_heap k.
Proof.
  intros Hr Ht Hi Hrem Hnoeof.
  destruct (resolves_task _ _ _ _ Hr) as (t' & Ht' & Hin).
  assert (t' = t) as -> by congruence.
  rewrite (pipe_close_resolved EOF k n pipe p Hr).
  assert (pipe_close_eof EOF n pipe k = Ret () k) as Heof.
  { rewrite (pipe_close_eof_eq EOF k n pipe p t Hr Ht).
    destruct Hnoeof as [Hd|Hsz].
    - by rewrite Hd.
    - by rewrite (proj2 (Z.eqb_neq _ _) Hsz), andb_false_r. }
  rewrite (bind_Ret _ _ _ _ _ Heof).
  apply (pipe_close_release_shared k pipe p t i); [apply Hr|done..].
Qed.

Lemma pipe_close_shared_keeps_buffers_witness :
  ∃ k', pipe_close EOF_byte 1 (as_task 1 (k_shared cb_hi)) = Ret Closed k' ∧
        pipe_heap k' !! 2%positive = Some (without_owner w_shared 0) ∧
        cb_heap k' = cb_heap (as_task 1 (k_shared cb_hi)).
Proof.
  apply (pipe_close_shared_keeps_buffers EOF_byte (as_task 1 (k_shared cb_hi))
           1 2%positive w_shared t_piped 0).
  - split; vm_compute; reflexivity.
  - vm_compute; reflexivity.
  - vm_compute; reflexivity.
  - vm_compute; discriminate.
  - right. vm_compute; discriminate.
Defined.

(** ** A pipe from creation to release *)

Lemma owner_index (pid : pid_t) : array_m_index (mk_array_m 32 [pid]) pid = Some 0.
Proof. unfold array_m_index; simpl. by rewrite decide_True. Qed.

Lemma registry_fresh_not_new (k : kernel) (t : task_t) :
  registry_fresh k t →
  (new_read_end k ∉ items (pipes t)) ∧ (new_write_end k ∉ items (pipes t)).
Proof.
  intros Hreg. unfold registry_fresh in Hreg. rewrite Forall_forall in Hreg.
  split; intros Hin; destruct (Hreg _ Hin) as (v & Hv & _).
  - by rewrite new_read_end_fresh in Hv.
  - by rewrite new_write_end_fresh in Hv.
Qed.

(** X18: the task's list has room for two more entries and holds live
    endpoints only, none of which carries either of the two descriptors
    about to be handed out ([registry_fresh]).  The task makes a pipe,
    closes the WRITE descriptor and then the READ descriptor.  All
    three calls return; both endpoint objects and the ring buffer have
    been released, so that the heap of endpoints and the heap of ring
    buffers are what they were before the pipe was made; the task's list
    is what it was; and [fd_max] has moved on by two.  The statement
    covers the [pipe_t] objects and the ring buffers only: the two
    [pids] arrays that [pipe_create] allocates (lines 14 and 21) are
    kept inside the endpoints here, and nothing in pipe.c frees them. *)
Theorem pipe_lifecycle_restores_heaps (EOF : char) (k : kernel) (t : task_t) :
  tasks k !! current_pid k = Some t →
  registry_fresh k t →
  size (pipes t) + 1 < max_size (pipes t) →
  ∃ rfd wfd k1 k2 k3,
    pipe k = Ret (rfd, wfd) k1 ∧
    pipe_close EOF wfd k1 = Ret Closed k2 ∧
    pipe_close EOF rfd k2 = Ret Closed k3 ∧
    pipe_heap k3 = pipe_heap k ∧ cb_heap k3 = cb_heap k ∧
    pipes <$> tasks k3 !! current_pid k3 = Some (pipes t) ∧
    fd_max <$> tasks k3 !! current_pid k3 = Some (int_wrap (int_wrap (fd_max t + 1) + 1)).
Proof.
  intros Ht Hreg Hroom.
  destruct (after_pipe_resolves k t Hreg) as [Hr Hw].
  destruct (registry_fresh_not_new k t Hreg) as [Hrnew Hwnew].
  pose proof (new_ends_distinct k) as Hrw.
  set (k1 := after_pipe k t) in *.
  set (R := mk_pipe READ _ _ _) in *. set (W := mk_pipe WRITE _ _ _) in *.
  set (r := new_read_end k) in *. set (w := new_write_end k) in *.
  set (a := new_buffer k) in *.
  pose proof (new_read_end_fresh k : pipe_heap k !! r = None) as Hrf.
  pose proof (new_write_end_fresh k : pipe_heap k !! w = None) as Hwf.
  pose proof (new_buffer_fresh k : cb_heap k !! a = None) as Haf.
  assert (w ∉ items (pipes t) ++ [r]) as Hwnew'.
  { rewrite elem_of_app, list_elem_of_singleton. intros [?|?]; done. }
  (* the WRITE descriptor goes first *)
  destruct (pipe_close_owner_effect EOF k1 _ w W _ a (cb_init 64) 0 Hw
              (conj eq_refl (after_pipe_buffer k t)) (after_pipe_task k t)
              (owner_index _))
    as (j2 & k2 & Hj2 & Hclose2 & Hpid2 & Htasks2 & Hothers2 & Hw2 & Hbuf2 & Ha2).
  cbn [pipes items] in Hj2. unfold array_m_index in Hj2. cbn [items] in Hj2.
  change (index_from w (items (pipes t) ++ [r] ++ w :: []) 0 = Some j2) in Hj2.
  rewrite app_assoc, index_from_middle in Hj2 by done.
  injection Hj2 as <-.
  change (size (pids (without_owner W 0)) =? 0) with true in Hw2. cbv iota in Hw2.
  destruct (cb_heap k2 !! a) as [c2|] eqn:Hc2;
    [|by destruct (proj1 Ha2 eq_refl) as [_ ?]].
  (* then the READ descriptor *)
  assert (tasks k2 !! current_pid k2 =
            Some (mk_task (int_wrap (int_wrap (fd_max t + 1) + 1))
                    (mk_array_m (max_size (pipes t)) (items (pipes t) ++ [r])))) as Ht2.
  { rewrite Hpid2, Htasks2, lookup_insert_eq. unfold without_entry, array_m_remove.
    cbn [pipes fd_max max_size items].
    replace (Z.to_nat (0 + Z.of_nat (length (items (pipes t) ++ [r]))))
      with (length (items (pipes t) ++ [r])) by lia.
    change [new_read_end k; new_write_end k] with ([r] ++ [w]).
    by rewrite (app_assoc _ [r] [w]), delete_middle, app_nil_r. }
  assert (pipe_heap k2 !! r = Some R) as Hr2.
  { rewrite Hothers2 by done. apply Hr. }
  assert (resolves k2 (fd_max t) r R) as Hres2.
  { split; [|done]. eapply find_pipe_intro; [exact Ht2|]. cbn [pipes items].
    rewrite find_pipe_in_skip.
    - cbn [find_pipe_in]. rewrite Hr2. cbn [fd R]. by rewrite Z.eqb_refl.
    - eapply Forall_impl; [apply Hreg|]. intros q (v & Hq & Hne & _).
      exists v. split; [|done]. rewrite Hothers2.
      + by apply after_pipe_old_entry.
      + intros ->. congruence. }
  assert (array_m_index (pids R) (current_pid k2) = Some 0) as Hown2
    by (rewrite Hpid2; apply owner_index).
  destruct (pipe_close_owner_effect EOF k2 _ r R _ a c2 0 Hres2 (conj eq_refl Hc2) Ht2 Hown2)
    as (j3 & k3 & Hj3 & Hclose3 & Hpid3 & Htasks3 & Hothers3 & Hr3 & Hbuf3 & Ha3).
  unfold array_m_index in Hj3. cbn [pipes items] in Hj3.
  rewrite index_from_middle in Hj3 by done. injection Hj3 as <-.
  change (size (pids (without_owner R 0)) =? 0) with true in Hr3. cbv iota in Hr3.
  exists (fd_max t), (int_wrap (fd_max t + 1)), k1, k2, k3.
  split.
  { rewrite (pipe_eq k t Ht).
    by rewrite Z.geb_leb, (proj2 (Z.leb_gt _ _)) by lia. }
  split; [done|]. split; [done|]. split; [|split].
  - apply map_eq. intros q.
    destruct (decide (q = r)) as [->|Hqr]; [by rewrite Hr3, Hrf|].
    rewrite Hothers3 by done.
    destruct (decide (q = w)) as [->|Hqw]; [by rewrite Hw2, Hwf|].
    rewrite Hothers2 by done. cbn [k1 after_pipe after_pipe_create set_tasks pipe_heap].
    by rewrite !lookup_insert_ne.
  - apply map_eq. intros a'.
    destruct (decide (a' = a)) as [->|Hne].
    + rewrite Haf. by apply Ha3.
    + rewrite Hbuf3, Hbuf2 by congruence.
      cbn [k1 after_pipe after_pipe_create set_tasks cb_heap].
      by rewrite lookup_insert_ne.
  - rewrite Hpid3, Htasks3, !lookup_insert_eq. cbn [fmap option_fmap option_map].
    unfold without_entry, array_m_remove. cbn [pipes fd_max max_size items].
    replace (Z.to_nat (0 + Z.of_nat (length (items (pipes t)))))
      with (length (items (pipes t))) by lia.
    rewrite delete_middle, app_nil_r. split; [|done]. by destruct (pipes t).
Qed.

Lemma pipe_lifecycle_restores_heaps_witness :
  ∃ rfd wfd k1 k2 k3,
    pipe k_boot = Ret (rfd, wfd) k1 ∧
    pipe_close EOF_byte wfd k1 = Ret Closed k2 ∧
    pipe_close EOF_byte rfd k2 = Ret Closed k3 ∧
    pipe_heap k3 = pipe_heap k_boot ∧ cb_heap k3 = cb_heap k_boot ∧
    pipes <$> tasks k3 !! current_pid k3 = Some (pipes t_boot) ∧
    fd_max <$> tasks k3 !! current_pid k3 =
      Some (int_wrap (int_wrap (fd_max t_boot + 1) + 1)).
Proof.
  apply (pipe_lifecycle_restores_heaps EOF_byte k_boot t_boot).
  - vm_compute; reflexivity.
  - apply Forall_nil_2.
  - reflexivity.
Defined.

(** X19: the other order is not safe for a task that holds no other
    pipe.  Closing the READ descriptor first releases the ring buffer;
    the WRITE endpoint is then the only entry of the task's list, so
    closing it writes the EOF byte through the pointer to the released
    buffer. *)
Theorem pipe_close_read_end_first_faults (EOF : char) (k : kernel) (t : task_t) :
  tasks k !! current_pid k = Some t →
  items (pipes t) = [] →
  1 < max_size (pipes t) →
  ∃ rfd wfd k1 k2,
    pipe k = Ret (rfd, wfd) k1 ∧
    pipe_close EOF rfd k1 = Ret Closed k2 ∧
    cb_heap k2 = cb_heap k ∧
    pipe_close EOF wfd k2 = Fault.
Proof.
  intros Ht Hitems Hroom.
  assert (registry_fresh k t) as Hreg by (unfold registry_fresh; rewrite Hitems; constructor).
  destruct (after_pipe_resolves k t Hreg) as [Hr Hw].
  pose proof (new_ends_distinct k) as Hrw.
  pose proof (new_buffer_fresh k) as Haf.
  set (k1 := after_pipe k t) in *.
  set (R := mk_pipe READ _ _ _) in *. set (W := mk_pipe WRITE _ _ _) in *.
  destruct (pipe_close_owner_effect EOF k1 _ _ R _ _ (cb_init 64) 0 Hr
              (conj eq_refl (after_pipe_buffer k t)) (after_pipe_task k t)
              (owner_index _))
    as (j & k2 & Hj & Hclose & Hpid2 & Htasks2 & Hothers2 & _ & Hbuf2 & Ha2).
  cbn [pipes items] in Hj. unfold array_m_index in Hj. cbn [items] in Hj.
  rewrite Hitems in Hj. cbn [app index_from] in Hj.
  rewrite decide_True in Hj by done. injection Hj as <-.
  assert (cb_heap k2 !! new_buffer k = None) as Hgone by (by apply Ha2).
  assert (tasks k2 !! current_pid k2 =
            Some (mk_task (int_wrap (int_wrap (fd_max t + 1) + 1))
                    (mk_array_m (max_size (pipes t)) [new_write_end k]))) as Ht2.
  { rewrite Hpid2, Htasks2, lookup_insert_eq. unfold without_entry, array_m_remove.
    cbn [pipes fd_max max_size items]. by rewrite Hitems. }
  assert (pipe_heap k2 !! new_write_end k = Some W) as Hw2.
  { rewrite Hothers2 by done. apply Hw. }
  assert (resolves k2 (int_wrap (fd_max t + 1)) (new_write_end k) W) as Hres2.
  { split; [|done]. eapply find_pipe_intro; [exact Ht2|]. cbn [pipes items find_pipe_in].
    rewrite Hw2. cbn [fd W]. by rewrite Z.eqb_refl. }
  exists (fd_max t), (int_wrap (fd_max t + 1)), k1, k2.
  split.
  { rewrite (pipe_eq k t Ht). unfold size. rewrite Hitems.
    by rewrite Z.geb_leb, (proj2 (Z.leb_gt _ _)) by (simpl; lia). }
  split; [done|]. split.
  { apply map_eq. intros a'. destruct (decide (a' = new_buffer k)) as [->|Hne].
    - by rewrite Hgone, Haf.
    - rewrite Hbuf2 by congruence.
      cbn [k1 after_pipe after_pipe_create set_tasks cb_heap].
      by rewrite lookup_insert_ne. }
  rewrite (pipe_close_resolved EOF k2 _ _ W Hres2).
  apply bind_Fault.
  rewrite (pipe_close_eof_eq EOF k2 _ _ W _ Hres2 Ht2).
  change (bool_decide (dir W = WRITE) && _) with true. cbv iota.
  apply bind_Fault.
  rewrite (pipe_write_resolved k2 _ _ W) by done.
  apply bind_Fault. change (Z.to_nat 1) with 1%nat. cbn [write_loop].
  mstep. cbn [cb W].
  apply bind_Fault. munfold. by rewrite Hgone.
Qed.

Lemma pipe_close_read_end_first_faults_witness :
  ∃ rfd wfd k1 k2,
    pipe k_boot = Ret (rfd, wfd) k1 ∧
    pipe_close EOF_byte rfd k1 = Ret Closed k2 ∧
    cb_heap k2 = cb_heap k_boot ∧
    pipe_close EOF_byte wfd k2 = Fault.
Proof.
  apply (pipe_close_read_end_first_faults EOF_byte k_boot t_boot).
  - vm_compute; reflexivity.
  - reflexivity.
  - reflexivity.
Defined.

(** ** An invariant of the four calls *)

Lemma pipe_without_task (k : kernel) :
  tasks k !! current_pid k = None → pipe k = Fault.
Proof.
  intros Ht. unfold pipe. mstep. apply bind_Fault.
  unfold pipe_create. apply bind_Fault.
  unfold new_endpoint. mstep. apply bind_Fault.
  unfold next_fd. apply bind_Fault. by apply load_task_None.
Qed.

Lemma pipe_inv (k k' : kernel) (fds : Z * Z) :
  pipe k = Ret fds k' →
  ∃ t, tasks k !! current_pid k = Some t ∧ k' = after_pipe k t.
Proof.
  intros H. destruct (tasks k !! current_pid k) as [t|] eqn:Ht.
  - rewrite (pipe_eq k t Ht) in H.
    destruct (_ >=? _); [done|]. injection H as _ <-. eauto.
  - by rewrite pipe_without_task in H.
Qed.

Lemma kfree_cb_inv (o : option loc) (k k' : kernel) :
  kfree_cb o k = Ret () k' → ∃ a, o = Some a ∧ k' = set_cb_heap (delete a) k.
Proof.
  unfold kfree_cb. munfold. destruct o as [a|]; [|done].
  destruct (cb_heap k !! a); [|done]. intros [= <-]. eauto.
Qed.

Lemma kfree_pipe_inv (pipe : loc) (k k' : kernel) :
  kfree_pipe pipe k = Ret () k' → k' = set_pipe_heap (delete pipe) k.
Proof.
  unfold kfree_pipe. munfold.
  destruct (pipe_heap k !! pipe); [|done]. by intros [= <-].
Qed.

(** The release steps create no ring buffer and change none. *)
Lemma pipe_close_release_buffers (pipe : loc) (k k' : kernel) (r : close_status) :
  pipe_close_release pipe k = Ret r k' →
  ∀ a c, cb_heap k' !! a = Some c → cb_heap k !! a = Some c.
Proof.
  intros H.
  destruct (pipe_heap k !! pipe) as [p|] eqn:Hp; cycle 1.
  { unfold pipe_close_release in H. revert H. mstep.
    by erewrite bind_Fault by (by apply load_pipe_None). }
  destruct (tasks k !! current_pid k) as [t|] eqn:Ht; cycle 1.
  { unfold pipe_close_release in H. revert H. do 2 mstep.
    destruct (array_m_index (pids p) (current_pid k)) as [i|]; [|by intros [= _ <-]].
    mstep. by erewrite bind_Fault by (by apply load_task_None). }
  rewrite (pipe_close_release_eq k pipe p t Hp Ht) in H.
  destruct (array_m_index (pids p) (current_pid k)) as [i|]; [|by injection H as _ <-].
  cbv zeta in H.
  destruct (array_m_index (pipes t) pipe) as [j|]; [|by injection H as _ <-].
  destruct (size (pids (without_owner p i)) =? 0); [|by injection H as _ <-].
  apply bind_inv_Ret in H as ([] & k3 & Hfree & H).
  apply bind_inv_Ret in H as ([] & k4 & Hdestroy & [= _ <-]).
  apply kfree_pipe_inv in Hdestroy as ->.
  destruct (decide (dir p = READ)).
  - apply kfree_cb_inv in Hfree as (a0 & _ & ->). intros a c.
    cbn [set_pipe_heap set_cb_heap set_tasks cb_heap].
    rewrite lookup_delete_Some. by intros [_ ?].
  - by injection Hfree as <-.
Qed.

(** The EOF step keeps the set of objects and the buffer invariant. *)
Lemma pipe_close_eof_keeps (EOF : char) (n : Z) (pipe : loc) (k k' : kernel) :
  pipe_close_eof EOF n pipe k = Ret () k' →
  same_objects k k' ∧ (buffers_wf k → buffers_wf k').
Proof.
  unfold pipe_close_eof. intros H. revert H. mstep. intros H.
  apply bind_inv_Ret in H as (p & k1 & Hp & H).
  apply load_pipe_inv in Hp as [-> Hp].
  apply bind_inv_Ret in H as (last & k1 & Hlast & H).
  assert (k1 = k) as ->.
  { destruct (bool_decide (dir p = WRITE)); [|by injection Hlast as _ <-].
    apply bind_inv_Ret in Hlast as (t & k2 & Ht & [= _ <-]).
    revert Ht. munfold. by destruct (tasks k !! current_pid k); [intros [= _ <-]|]. }
  destruct last; [|by injection H as <-].
  apply bind_inv_Ret in H as (s & k2 & Hw & [= <-]).
  apply pipe_write_keeps in Hw as (? & ? & _). done.
Qed.

(** X20: the four calls keep every allocated ring buffer well formed:
    whenever one of them returns, each buffer still has its storage
    block of [capacity] cells, a count between 0 and the capacity, and
    cursors inside the block that are [count] cells apart. *)
Theorem calls_keep_buffers_wf (EOF : char) (k : kernel) (n : Z) (buf : list char)
    (cnt : Z) :
  buffers_wf k →
  (∀ fds k', pipe k = Ret fds k' → buffers_wf k') ∧
  (∀ s k', pipe_write n buf cnt k = Ret s k' → buffers_wf k') ∧
  (∀ r k', pipe_read EOF n buf cnt k = Ret r k' → buffers_wf k') ∧
  (∀ r k', pipe_close EOF n k = Ret r k' → buffers_wf k').
Proof.
  intros Hk. split; [|split; [|split]].
  - intros fds k' H. apply pipe_inv in H as (t & _ & ->).
    intros a c. cbn [after_pipe after_pipe_create set_tasks cb_heap].
    destruct (decide (new_buffer k = a)) as [<-|Hne].
    + rewrite lookup_insert_eq. intros [= <-]. by apply cb_init_wf.
    + rewrite lookup_insert_ne by done. apply Hk.
  - intros s k' H. apply pipe_write_keeps in H as (_ & Hwf & _). auto.
  - intros r k' H. apply pipe_read_keeps in H as (_ & Hwf & _). auto.
  - intros r k' H. unfold pipe_close in H.
    apply bind_inv_Ret in H as (o & k1 & Hf & H).
    apply find_pipe_inv in Hf as (-> & _).
    destruct o as [pipe|]; [|by injection H as _ <-].
    apply bind_inv_Ret in H as ([] & k1 & Heof & H).
    apply pipe_close_eof_keeps in Heof as [_ Hwf].
    intros a c Ha. eapply (Hwf Hk), pipe_close_release_buffers; eauto.
Qed.

Lemma k_shared_buffers_wf : buffers_wf (k_shared cb_hi).
Proof.
  intros a c. cbn [k_shared cb_heap]. rewrite lookup_singleton_Some.
  intros [_ <-]. unfold cb_wf, cb_hi; simpl. repeat split; lia.
Qed.

Lemma calls_keep_buffers_wf_witness :
  ∃ r k', pipe_close EOF_byte 1 (k_shared cb_hi) = Ret r k' ∧ buffers_wf k'.
Proof.
  eexists _, _. split; [vm_compute; reflexivity|].
  eapply (proj2 (proj2 (proj2 (calls_keep_buffers_wf EOF_byte (k_shared cb_hi) 1 [] 0
                                 k_shared_buffers_wf)))).
  vm_compute; reflexivity.
Defined.

(** * The returns of [pipe_close] *)

(** Every return of [pipe_close] traced back through its steps. *)
Lemma pipe_close_inv (EOF : char) (n : Z) (k k' : kernel) (r : close_status) :
  pipe_close EOF n k = Ret r k' →
  (r = CloseError InvalidDescriptor ∧ k' = k ∧ find_pipe n k = Ret None k) ∨
  ∃ pipe p t k1,
    resolves k n pipe p ∧ tasks k !! current_pid k = Some t ∧
    pipe ∈ items (pipes t) ∧
    pipe_close_eof EOF n pipe k = Ret () k1 ∧ same_objects k k1 ∧
    ((r = CloseError NotOwned ∧ k' = k1 ∧
      array_m_index (pids p) (current_pid k) = None) ∨
     ∃ i j,
       r = Closed ∧
       array_m_index (pids p) (current_pid k) = Some i ∧
       array_m_index (pipes t) pipe = Some j ∧
       current_pid k' = current_pid k ∧
       tasks k' = <[current_pid k := without_entry t j]> (tasks k) ∧
       (∀ q, q ≠ pipe → pipe_heap k' !! q = pipe_heap k !! q) ∧
       pipe_heap k' !! pipe =
         (if size (pids (without_owner p i)) =? 0 then None
          else Some (without_owner p i))).
Proof.
  intros Hclose. unfold pipe_close in Hclose.
  apply bind_inv_Ret in Hclose as ([pipe|] & k0 & Hf & Hclose); cycle 1.
  { pose proof Hf as Hf'. apply find_pipe_inv in Hf' as (-> & _).
    injection Hclose as <- <-. by left. }
  right. pose proof Hf as Hf'.
  apply find_pipe_inv in Hf' as (-> & t & Ht & Hin).
  apply find_pipe_in_found in Hin as (Hin & p & Hp & _).
  apply bind_inv_Ret in Hclose as ([] & k1 & Heof & Hclose).
  destruct (pipe_close_eof_keeps EOF n pipe k k1 Heof) as [Hsame _].
  pose proof Hsame as (Hpid1 & Ht1 & Hp1 & _).
  exists pipe, p, t, k1. split; [by split|]. split; [done|]. split; [done|].
  split; [done|]. split; [done|].
  rewrite (pipe_close_release_eq k1 pipe p t) in Hclose
    by (by rewrite ?Hp1, ?Ht1, ?Hpid1).
  rewrite Hpid1 in Hclose.
  destruct (array_m_index (pids p) (current_pid k)) as [i|];
    [|injection Hclose as <- <-; by left].
  right. cbv zeta in Hclose.
  destruct (index_from_elem pipe (items (pipes t)) 0 Hin) as [j Hj].
  unfold array_m_index at 1 in Hclose. rewrite Hj in Hclose.
  exists i, j.
  destruct (size (pids (without_owner p i)) =? 0).
  - apply bind_inv_Ret in Hclose as ([] & k3 & Hfree & Hclose).
    apply bind_inv_Ret in Hclose as ([] & k4 & Hdestroy & [= <- <-]).
    apply kfree_pipe_inv in Hdestroy as ->.
    assert (current_pid k3 = current_pid k ∧
            tasks k3 = <[current_pid k := without_entry t j]> (tasks k) ∧
            pipe_heap k3 = <[pipe := without_owner p i]> (pipe_heap k))
      as (Hpid3 & Ht3 & Hp3).
    { destruct (decide (dir p = READ)).
      - apply kfree_cb_inv in Hfree as (a0 & _ & ->).
        cbn [set_pipe_heap set_cb_heap set_tasks current_pid tasks pipe_heap].
        by rewrite Hpid1, Ht1, Hp1.
      - injection Hfree as <-.
        cbn [set_pipe_heap set_cb_heap set_tasks current_pid tasks pipe_heap].
        by rewrite Hpid1, Ht1, Hp1. }
    cbn [set_pipe_heap current_pid tasks pipe_heap].
    rewrite Hpid3, Ht3, Hp3.
    do 5 (split; [done|]). split.
    + intros q Hq. by rewrite lookup_delete_ne, lookup_insert_ne.
    + apply lookup_delete_eq.
  - injection Hclose as <- <-.
    cbn [set_pipe_heap set_cb_heap set_tasks current_pid tasks pipe_heap].
    rewrite Hpid1, Ht1, Hp1.
    do 5 (split; [done|]). split.
    + intros q Hq. by rewrite lookup_insert_ne.
    + apply lookup_insert_eq.
Qed.




(** * Descriptors stay unused until they are handed out *)

Lemma delete_NoDup_not_elem {A} (l : list A) (j : nat) (x : A) :
  NoDup l → l !! j = Some x → NoDup (delete j l) ∧ x ∉ delete j l.
Proof.
  intros Hnd Hj. rewrite <- (take_drop_middle l j x Hj) in Hnd.
  rewrite delete_take_drop.
  apply NoDup_app in Hnd as (Hnd1 & Hdisj & Hnd2).
  apply NoDup_cons in Hnd2 as [Hx Hnd2]. split.
  - apply NoDup_app. split; [done|]. split; [|done].
    intros y Hy1 Hy2. apply (Hdisj y Hy1). by right.
  - rewrite elem_of_app. intros [Hin|Hin]; [|done].
    apply (Hdisj x Hin). by left.
Qed.

Lemma delete_elem_sub {A} (l : list A) (j : nat) (x : A) :
  x ∈ delete j l → x ∈ l.
Proof.
  revert j. induction l as [|y l IH]; intros [|j]; simpl; try done.
  - intros ?. by right.
  - rewrite !elem_of_cons. intros [?|?]; [by left|right; eauto].
Qed.

Lemma delete_other_elem {A} (l : list A) (i : nat) (x y : A) :
  x ∈ l → l !! i = Some y → x ≠ y → x ∈ delete i l.
Proof.
  revert i. induction l as [|z l IH]; intros [|i]; simpl; try done.
  - intros Hin [= ->] Hne. apply elem_of_cons in Hin as [?|?]; done.
  - rewrite !elem_of_cons. intros [?|?] Hi Hne; [by left|right; eauto].
Qed.

(** A state with the same tasks and endpoints is in order as well. *)
Lemma same_objects_in_order (k k' : kernel) :
  same_objects k k' → descriptors_in_order k → descriptors_in_order k'.
Proof.
  intros (_ & Ht & Hp & _) Hk pid t. rewrite Ht, Hp. apply Hk.
Qed.

(** In such a state neither of the next two descriptors is in use. *)
Lemma descriptors_in_order_fresh (k : kernel) (t : task_t) :
  descriptors_in_order k → tasks k !! current_pid k = Some t →
  fd_max t + 1 < 2 ^ 31 → registry_fresh k t.
Proof.
  intros Hk Ht Hmax. destruct (Hk _ _ Ht) as (Hrange & _ & Hall).
  eapply Forall_impl; [exact Hall|]. intros q (v & Hv & _ & Hlt).
  exists v. split; [done|]. rewrite int_wrap_small by lia. lia.
Qed.

Lemma pipe_in_order (k k' : kernel) (t : task_t) (fds : Z * Z) :
  descriptors_in_order k → tasks k !! current_pid k = Some t →
  fd_max t + 2 < 2 ^ 31 →
  pipe k = Ret fds k' → descriptors_in_order k'.
Proof.
  intros Hk Ht Hmax H. apply pipe_inv in H as (t0 & Ht0 & ->).
  assert (t0 = t) as -> by congruence.
  destruct (Hk _ _ Ht) as (Hrange & Hnd & Hall).
  assert (int_wrap (fd_max t + 1) = fd_max t + 1) as Hw1
    by (apply int_wrap_small; lia).
  assert (int_wrap (int_wrap (fd_max t + 1) + 1) = fd_max t + 2) as Hw2
    by (rewrite Hw1, int_wrap_small; lia).
  intros pid t'. cbn [after_pipe after_pipe_create set_tasks tasks].
  destruct (decide (pid = current_pid k)) as [->|Hpid].
  - rewrite lookup_insert_eq. intros [= <-]. cbn [fd_max pipes items].
    rewrite Hw2. split; [lia|]. split.
    + apply NoDup_app. split; [done|]. split.
      * intros q Hq. rewrite Forall_forall in Hall.
        destruct (Hall q Hq) as (v & Hv & _).
        rewrite !not_elem_of_cons. split; [|split]; [| |apply not_elem_of_nil].
        -- intros ->. by rewrite new_read_end_fresh in Hv.
        -- intros ->. by rewrite new_write_end_fresh in Hv.
      * apply NoDup_cons. split; [|apply NoDup_singleton].
        rewrite list_elem_of_singleton. apply new_ends_distinct.
    + apply Forall_app. split; [|apply Forall_cons_2; [|apply Forall_cons_2;
                                                          [|apply Forall_nil_2]]].
      * eapply Forall_impl; [exact Hall|]. intros q (v & Hv & Hown & Hlt).
        exists v. split; [by apply after_pipe_old_entry|]. split; [done|lia].
      * eexists. split; [apply after_pipe_read_end|]. cbn [pids items fd].
        split; [by left|lia].
      * eexists. split; [apply after_pipe_write_end|]. cbn [pids items fd].
        split; [by left|lia].
  - rewrite !lookup_insert_ne by done. intros Ht'.
    destruct (Hk _ _ Ht') as (Hrange' & Hnd' & Hall').
    split; [done|]. split; [done|].
    eapply Forall_impl; [exact Hall'|]. intros q (v & Hv & Hown & Hlt).
    exists v. split; [|done]. by apply (after_pipe_old_entry k t).
Qed.

Lemma pipe_close_in_order (EOF : char) (n : Z) (k k' : kernel) (r : close_status) :
  descriptors_in_order k →
  pipe_close EOF n k = Ret r k' → descriptors_in_order k'.
Proof.
  intros Hk H.
  apply pipe_close_inv in H
    as [(_ & -> & _)|(pipe & p & t & k1 & Hr & Ht & _ & _ & Hsame & H)]; [done|].
  destruct H as [(_ & -> & _)|(i & j & _ & Hi & Hj & _ & Ht' & Hq & Hp')].
  { by apply (same_objects_in_order k). }
  destruct Hr as [_ Hp].
  apply index_from_Some in Hi as [_ Hi]. apply index_from_Some in Hj as [_ Hj].
  rewrite Z.sub_0_r in Hi, Hj.
  intros pid t'. rewrite Ht'.
  destruct (decide (pid = current_pid k)) as [->|Hpid].
  - rewrite lookup_insert_eq. intros [= <-].
    destruct (Hk _ _ Ht) as (Hrange & Hnd & Hall).
    destruct (delete_NoDup_not_elem _ _ _ Hnd Hj) as [Hnd' Hnot].
    cbn [without_entry array_m_remove fd_max pipes items].
    split; [done|]. split; [done|].
    apply Forall_forall. intros q Hin. rewrite Forall_forall in Hall.
    destruct (Hall q (delete_elem_sub _ _ _ Hin)) as (v & Hv & Hown & Hlt).
    exists v. split; [|done]. rewrite Hq; [done|]. by intros ->.
  - rewrite lookup_insert_ne by done. intros Hpt.
    destruct (Hk _ _ Hpt) as (Hrange & Hnd & Hall).
    split; [done|]. split; [done|].
    eapply Forall_impl; [exact Hall|]. intros q (v & Hv & Hown & Hlt).
    destruct (decide (q = pipe)) as [->|Hne]; [|exists v; by rewrite Hq].
    assert (v = p) as -> by congruence.
    pose proof (delete_other_elem _ _ _ _ Hown Hi Hpid) as Hown'.
    exists (without_owner p i). rewrite Hp'.
    destruct (Z.eqb_spec (size (pids (without_owner p i))) 0) as [Hz|_]; [|done].
    unfold size in Hz. cbn [without_owner pids array_m_remove items] in Hz.
    destruct (delete (Z.to_nat i) (items (pids p))); [|done].
    by apply elem_of_nil in Hown'.
Qed.

(** X21: the calls keep the descriptors in order.  In a state where the
    descriptors are in order ([descriptors_in_order]), neither of the
    two descriptors the running task's next [pipe] hands out is carried
    by an entry of its list, as long as [fd_max + 1] is an [int]; and
    every call that returns leaves the descriptors in order, [pipe] as
    long as [fd_max + 2] is an [int]. *)
Theorem calls_keep_descriptors_in_order (EOF : char) (k : kernel) (n : Z)
    (buf : list char) (cnt : Z) :
  descriptors_in_order k →
  (∀ t, tasks k !! current_pid k = Some t → fd_max t + 1 < 2 ^ 31 →
        registry_fresh k t) ∧
  (∀ t fds k', tasks k !! current_pid k = Some t → fd_max t + 2 < 2 ^ 31 →
               pipe k = Ret fds k' → descriptors_in_order k') ∧
  (∀ s k', pipe_write n buf cnt k = Ret s k' → descriptors_in_order k') ∧
  (∀ r k', pipe_read EOF n buf cnt k = Ret r k' → descriptors_in_order k') ∧
  (∀ r k', pipe_close EOF n k = Ret r k' → descriptors_in_order k').
Proof.
  intros Hk. split; [|split; [|split; [|split]]].
  - intros t. by apply descriptors_in_order_fresh.
  - intros t fds k'. by apply pipe_in_order.
  - intros s k' H. apply pipe_write_keeps in H as (Hsame & _).
    by apply (same_objects_in_order k).
  - intros r k' H. apply pipe_read_keeps in H as (Hsame & _).
    by apply (same_objects_in_order k).
  - intros r k'. by apply pipe_close_in_order.
Qed.

(** A task that holds no pipes has its descriptors in order. *)
Lemma k_boot_in_order : descriptors_in_order k_boot.
Proof.
  intros pid t. cbn [k_boot tasks]. rewrite lookup_singleton_Some.
  intros [_ <-]. cbn [t_boot fd_max pipes items].
  split; [lia|]. split; [apply NoDup_nil_2|apply Forall_nil_2].
Qed.

Lemma calls_keep_descriptors_in_order_witness :
  ∃ fds k', pipe k_boot = Ret fds k' ∧ descriptors_in_order k' ∧
            registry_fresh k_boot t_boot.
Proof.
  pose proof (calls_keep_descriptors_in_order EOF_byte k_boot 0 [] 0 k_boot_in_order)
    as (Hfresh & Hpipe & _).
  eexists _, _. split; [vm_compute; reflexivity|]. split.
  - eapply (Hpipe t_boot); [vm_compute; reflexivity|simpl; lia|vm_compute; reflexivity].
  - apply Hfresh; [vm_compute; reflexivity|simpl; lia].
Defined.
